(** * Lunaria: the status computation of [LunariaInstance]

    A shallow embedding of [getFullStatus], [getFileStatus], [getPathResolver]
    and [findFileConfig] of the core package's entry point, and the properties
    of the localization status report that follow from it.

    The instance reaches the outside world through a handful of collaborators
    (the glob expander, the file system, git, the path resolver, the
    front-matter check and the dictionary checker).  They are gathered in one
    record of functions, [Externals]; every call the code makes to one of them
    is recorded as an [Event], so that a run is a pair of the events it
    performed and of the way it ended. *)

From Stdlib Require Import List String Ascii ZArith Bool Lia.
From Stdlib Require Import Permutation Sorted Orders Mergesort.
Import ListNotations.

Local Open Scope string_scope.
Local Open Scope list_scope.

(* ================================================================== *)
(** ** Strings and [Array.prototype.sort] *)

(** [sourceFilePaths.sort()] is called without a comparator: the paths are
    ordered as strings, code unit by code unit.  A path is a [string] whose
    characters stand for its code units. *)
Module PathOrder <: TotalLeBool.
Definition t := string.
Definition leb (a b : string) : bool := String.leb a b.
Lemma leb_total : forall a b, leb a b = true \/ leb b a = true.
Proof. intros a b. apply String.leb_total. Qed.
End PathOrder.

Module PathSort := Sort PathOrder.

Definition Array_sort (paths : list string) : list string := PathSort.sort paths.

(** [`\n- ${path}`] *)
Definition LF : string := String (ascii_of_nat 10) EmptyString.

(** [Array.prototype.toString], used when an array is interpolated in a
    template string: the items joined by commas. *)
Definition Array_toString (items : list string) : string := String.concat "," items.

(* ================================================================== *)
(** ** Configuration *)

(** A locale of the configuration.  The status code reads its [lang] only. *)
Record Locale : Type := mkLocale { lang : string }.

(** An entry of [files].  [Pattern] and the type of [optionalKeys] are
    declared in [config/types], outside of this file: the code hands them
    over to the path resolver and to the dictionary checker untouched. *)
Record FileConfig (Pattern OptionalKeys : Type) : Type := mkFileConfig {
  include : list string;
  exclude : list string;
  pattern : Pattern;
  type : string;
  optionalKeys : option OptionalKeys
}.
Arguments mkFileConfig {Pattern OptionalKeys}.
Arguments include {Pattern OptionalKeys}.
Arguments exclude {Pattern OptionalKeys}.
Arguments pattern {Pattern OptionalKeys}.
Arguments type {Pattern OptionalKeys}.
Arguments optionalKeys {Pattern OptionalKeys}.

Record Tracking : Type := mkTracking { localizableProperty : option string }.

Record LunariaConfig (Pattern OptionalKeys : Type) : Type := mkLunariaConfig {
  sourceLocale : Locale;
  locales : list Locale;
  files : list (FileConfig Pattern OptionalKeys);
  tracking : Tracking
}.
Arguments mkLunariaConfig {Pattern OptionalKeys}.
Arguments sourceLocale {Pattern OptionalKeys}.
Arguments locales {Pattern OptionalKeys}.
Arguments files {Pattern OptionalKeys}.
Arguments tracking {Pattern OptionalKeys}.

(* ================================================================== *)
(** ** Git data and the report *)

(** What [getFileLatestChanges] answers, as far as the code reads it:
    [latestTrackedChange.date]. *)
Record GitChange : Type := mkGitChange { date : string }.
Record FileGitData : Type := mkFileGitData { latestTrackedChange : GitChange }.

Inductive Status : Type := missing | outdated | up_to_date.

(** [StatusLocalizationEntry]: [git] and [missingKeys] are the two properties
    that an entry may lack. *)
Record StatusLocalizationEntry : Type := mkLocalization {
  loc_lang : string;
  loc_path : string;
  loc_git : option FileGitData;
  loc_status : Status;
  loc_missingKeys : option (list string)
}.

Record StatusSource : Type := mkSource {
  src_lang : string;
  src_path : string;
  src_git : FileGitData
}.

(** An entry of the report: the spread [...fileConfig] followed by [source]
    and [localizations]. *)
Record StatusEntry (Pattern OptionalKeys : Type) : Type := mkEntry {
  entry_include : list string;
  entry_exclude : list string;
  entry_pattern : Pattern;
  entry_type : string;
  entry_optionalKeys : option OptionalKeys;
  source : StatusSource;
  localizations : list StatusLocalizationEntry
}.
Arguments mkEntry {Pattern OptionalKeys}.
Arguments entry_include {Pattern OptionalKeys}.
Arguments entry_exclude {Pattern OptionalKeys}.
Arguments entry_pattern {Pattern OptionalKeys}.
Arguments entry_type {Pattern OptionalKeys}.
Arguments entry_optionalKeys {Pattern OptionalKeys}.
Arguments source {Pattern OptionalKeys}.
Arguments localizations {Pattern OptionalKeys}.

Definition LunariaStatus (Pattern OptionalKeys : Type) : Type :=
  list (StatusEntry Pattern OptionalKeys).

(* ================================================================== *)
(** ** The collaborators *)

(** What [createPathResolver] returns, restricted to the members used here. *)
Record PathResolver : Type := mkPathResolver {
  isSourcePathMatch : string -> bool;
  isLocalesPathMatch : string -> bool;
  toPath : string -> string -> string
}.

(** A value caught by [catch (e)]: an [Error] with its message, or anything
    else. *)
Inductive Thrown : Type :=
| ThrownError (message : string)
| ThrownOther.

(** The result of [isFileLocalizable]: the code only asks whether it is an
    [Error]. *)
Inductive Localizable : Type :=
| LocalizableError (message : string)
| LocalizableValue (value : bool).

Record Externals (Pattern OptionalKeys : Type) : Type := mkExternals {
  createPathResolver : Pattern -> Locale -> list Locale -> PathResolver;
  (** [glob(include, { ignore: exclude })] on the file tree of the run *)
  glob : list string -> list string -> list string;
  (** [resolve] of node:path and [existsSync] of node:fs *)
  resolve : string -> string;
  existsSync : string -> bool;
  isFileLocalizable : string -> option string -> Localizable;
  (** [inl] when the call throws *)
  getDictionaryCompletion :
    option OptionalKeys -> string -> string -> Thrown + list string;
  (** [this.#git.getFileLatestChanges] on the history of the run *)
  getFileLatestChanges : string -> FileGitData;
  (** the time value of [new Date(s)]; [None] is NaN, an invalid date *)
  Date_getTime : string -> option Z;
  FileConfigNotFound_message : string;
  (** a pattern interpolated in a template string *)
  Pattern_toString : Pattern -> string
}.
Arguments mkExternals {Pattern OptionalKeys}.
Arguments createPathResolver {Pattern OptionalKeys}.
Arguments glob {Pattern OptionalKeys}.
Arguments resolve {Pattern OptionalKeys}.
Arguments existsSync {Pattern OptionalKeys}.
Arguments isFileLocalizable {Pattern OptionalKeys}.
Arguments getDictionaryCompletion {Pattern OptionalKeys}.
Arguments getFileLatestChanges {Pattern OptionalKeys}.
Arguments Date_getTime {Pattern OptionalKeys}.
Arguments FileConfigNotFound_message {Pattern OptionalKeys}.
Arguments Pattern_toString {Pattern OptionalKeys}.

(* ================================================================== *)
(** ** Runs *)

(** The calls to the collaborators, the messages given to the logger and the
    end of the process. *)
Inductive Event : Type :=
| call_glob (include exclude : list string)
| call_isFileLocalizable (path : string) (localizableProperty : option string)
| call_getFileLatestChanges (path : string)
| call_existsSync (path : string)
| call_getDictionaryCompletion (sourcePath localizedPath : string)
| logger_trace (message : string)
| logger_warn (message : string)
| logger_error (message : string)
| process_exit (code : Z).

(** A computation either returns a value or ends the process. *)
Inductive Outcome (A : Type) : Type :=
| Returned (value : A)
| Exited (code : Z).
Arguments Returned {A}.
Arguments Exited {A}.

Definition Run (A : Type) : Type := (list Event * Outcome A)%type.

Definition events {A} (r : Run A) : list Event := fst r.
Definition outcome {A} (r : Run A) : Outcome A := snd r.

Definition ret {A} (a : A) : Run A := ([], Returned a).

Definition bind {A B} (m : Run A) (f : A -> Run B) : Run B :=
  match m with
  | (t, Returned a) => let (t', o) := f a in (t ++ t', o)
  | (t, Exited code) => (t, Exited code)
  end.

Notation "x <- m ;; k" := (bind m (fun x => k))
  (at level 61, m at next level, right associativity).
Notation "m ;;; k" := (bind m (fun _ => k))
  (at level 61, right associativity).

Definition emit (e : Event) : Run unit := ([e], Returned tt).

(** [process.exit(code)] *)
Definition process_exit_ {A} (code : Z) : Run A := ([process_exit code], Exited code).

(** [for (const x of xs) { acc = body(acc, x) }] *)
Fixpoint forOf {A S} (body : S -> A -> Run S) (xs : list A) (acc : S) : Run S :=
  match xs with
  | [] => ret acc
  | x :: rest => acc' <- body acc x ;; forOf body rest acc'
  end.

(** [Promise.all(xs.map(async (x) => body(x)))]: the results come back in the
    order of [xs], whichever callback finishes first, and the first
    [process.exit] ends the run.  The events of the callbacks are recorded
    one callback after the other.  This is a grouping by callback, not the
    order of the code: there every callback is started, up to its first
    [await], before any of them goes on, and they go on in the order in which
    their awaited calls answer.  The calls made when the callbacks start are
    thus in the order of [xs]; the calls made after an [await] are in no fixed
    order, and what is said of them is said up to their order. *)
Fixpoint Promise_all_map {A B} (body : A -> Run B) (xs : list A) : Run (list B) :=
  match xs with
  | [] => ret []
  | x :: rest =>
      y <- body x ;;
      ys <- Promise_all_map body rest ;;
      ret (y :: ys)
  end.

(* ================================================================== *)
(** ** [LunariaInstance] *)

(** The order in which the promises of one [Promise.all] of [getFullStatus]
    settle.  The callbacks are started in the order of the sorted paths, each
    one waits for git and for the file system, and whichever gets its answers
    first goes on first: for the [i]-th entry of [files] and the paths handed
    to [Promise.all], a scheduler gives the paths in the order in which their
    callbacks finish. *)
Definition Scheduler : Type := nat -> list string -> list string.

(** Every callback finishes, once. *)
Definition fair (sched : Scheduler) : Prop :=
  forall i paths, Permutation (sched i paths) paths.

(** The callbacks finish in the order in which they were started. *)
Definition in_order : Scheduler := fun _ paths => paths.

(** The callbacks finish in the opposite order. *)
Definition last_first : Scheduler := fun _ paths => rev paths.

Section LunariaInstance.

Context {Pattern OptionalKeys : Type}.
Variable E : Externals Pattern OptionalKeys.
Variable config : LunariaConfig Pattern OptionalKeys.

Local Abbreviation FileConfig := (FileConfig Pattern OptionalKeys).
Local Abbreviation StatusEntry := (StatusEntry Pattern OptionalKeys).
Local Abbreviation LunariaStatus := (LunariaStatus Pattern OptionalKeys).

(** Returns a path resolver for the specified pattern. *)
Definition getPathResolver (pattern : Pattern) : PathResolver :=
  createPathResolver E pattern (sourceLocale config) (locales config).

(** The callback of [find] in [findFileConfig]: the path matches either the
    source or the locales pattern of the [files] entry. *)
Definition isFileConfigMatch (path : string) (file : FileConfig) : bool :=
  let r := getPathResolver (pattern file) in
  isSourcePathMatch r path || isLocalesPathMatch r path.

(** Finds the matching [files] configuration for the specified path. *)
Definition findFileConfig (path : string) : option FileConfig :=
  find (isFileConfigMatch path) (files config).

(** [new Date(a) > new Date(b)]: a comparison of time values, false as soon as
    one of them is NaN. *)
Definition Date_gt (a b : string) : bool :=
  match Date_getTime E a, Date_getTime E b with
  | Some ta, Some tb => (tb <? ta)%Z
  | _, _ => false
  end.

(** The given path can be of another locale, therefore it is always converted
    to the source path. *)
Definition toSourcePath (fileConfig : FileConfig) (path : string) : string :=
  let r := getPathResolver (pattern fileConfig) in
  if isSourcePathMatch r path then path
  else toPath r path (lang (sourceLocale config)).

(** [toPath(path, lang)] under the pattern of [fileConfig]. *)
Definition localizedPathOf (fileConfig : FileConfig) (path : string) (locale : Locale) : string :=
  toPath (getPathResolver (pattern fileConfig)) path (lang locale).

(** [if (e instanceof Error) this.#logger.error(e.message)] *)
Definition surface (e : Thrown) : Run unit :=
  match e with
  | ThrownError message => emit (logger_error message)
  | ThrownOther => ret tt
  end.

(** The [missingKeys] property of an entry, if any. *)
Definition entryTypeData (fileConfig : FileConfig) (sourcePath localizedPath : string)
  : Run (option (list string)) :=
  if (type fileConfig =? "dictionary")%string then
    emit (call_getDictionaryCompletion sourcePath localizedPath) ;;;
    match getDictionaryCompletion E (optionalKeys fileConfig) sourcePath localizedPath with
    | inr missingKeys => ret (Some missingKeys)
    | inl e => surface e ;;; process_exit_ 1
    end
  else ret None.

(** The callback mapped over [locales] in [getFileStatus]. *)
Definition localizationEntry (fileConfig : FileConfig) (path sourcePath : string)
    (latestSourceChanges : FileGitData) (locale : Locale)
  : Run StatusLocalizationEntry :=
  let localizedPath := localizedPathOf fileConfig path locale in
  emit (call_getFileLatestChanges localizedPath) ;;;
  let latestLocaleChanges := getFileLatestChanges E localizedPath in
  let isOutdated :=
    Date_gt (date (latestTrackedChange latestSourceChanges))
            (date (latestTrackedChange latestLocaleChanges)) in
  emit (call_existsSync (resolve E localizedPath)) ;;;
  if negb (existsSync E (resolve E localizedPath)) then
    ret {| loc_lang := lang locale;
           loc_path := localizedPath;
           loc_git := None;
           loc_status := missing;
           loc_missingKeys := None |}
  else
    data <- entryTypeData fileConfig sourcePath localizedPath ;;
    ret {| loc_lang := lang locale;
           loc_path := localizedPath;
           loc_git := Some latestLocaleChanges;
           loc_status := if isOutdated then outdated else up_to_date;
           loc_missingKeys := data |}.

Definition getFileStatus (path : string) : Run (option StatusEntry) :=
  match findFileConfig path with
  | None =>
      emit (logger_error (FileConfigNotFound_message E)) ;;;
      ret None
  | Some fileConfig =>
      let sourcePath := toSourcePath fileConfig path in
      emit (call_isFileLocalizable path (localizableProperty (tracking config))) ;;;
      match isFileLocalizable E path (localizableProperty (tracking config)) with
      | LocalizableError message =>
          emit (logger_error message) ;;;
          ret None
      | LocalizableValue _ =>
          emit (call_getFileLatestChanges sourcePath) ;;;
          let latestSourceChanges := getFileLatestChanges E sourcePath in
          localizations <-
            Promise_all_map
              (localizationEntry fileConfig path sourcePath latestSourceChanges)
              (locales config) ;;
          ret (Some {| entry_include := include fileConfig;
                       entry_exclude := exclude fileConfig;
                       entry_pattern := pattern fileConfig;
                       entry_type := type fileConfig;
                       entry_optionalKeys := optionalKeys fileConfig;
                       source := {| src_lang := lang (sourceLocale config);
                                    src_path := sourcePath;
                                    src_git := latestSourceChanges |};
                       localizations := localizations |})
      end
  end.

(** The callback mapped over the sorted paths in [getFullStatus]:
    [if (fileStatus) status.push(fileStatus)]. *)
Definition pushFileStatus (status : LunariaStatus) (path : string) : Run LunariaStatus :=
  fileStatus <- getFileStatus path ;;
  match fileStatus with
  | Some entry => ret (status ++ [entry])
  | None => ret status
  end.

(** The callbacks of one [Promise.all] of [getFullStatus], in the order in
    which they finish: each one pushes to the shared [status] array when its
    own [getFileStatus] is done, and the array returned by [Promise.all] is
    dropped.  A callback is taken as a whole, from its call of
    [getFileStatus] to its push, so that the pushes are in the order of the
    code and the events are grouped by callback: in the code the callbacks
    start in the order of the sorted paths, and what is said of the events of
    several callbacks is said up to their order. *)
Definition dispatch (finishing : list string) (status : LunariaStatus) : Run LunariaStatus :=
  forOf pushFileStatus finishing status.

(** The paths of a [files] entry kept by the source pattern, and the others. *)
Definition sourceFilePaths (file : FileConfig) : list string :=
  filter (fun path => isSourcePathMatch (getPathResolver (pattern file)) path)
         (glob E (include file) (exclude file)).

Definition filteredOutPaths (file : FileConfig) : list string :=
  filter (fun path => negb (isSourcePathMatch (getPathResolver (pattern file)) path))
         (glob E (include file) (exclude file)).

Definition filteredOutWarning (paths : list string) : string :=
  ("The following paths were filtered out by not matching the source pattern: "
   ++ Array_toString (map (fun path => LF ++ "- " ++ path) paths)
   ++ LF ++ LF
   ++ "Verify if your `files`'s `pattern`, `include`, and `exclude` are correctly set.")%string.

(** The body of the loop over [files] in [getFullStatus], for the [i]-th
    entry. *)
Definition forFile (sched : Scheduler) (i : nat) (file : FileConfig)
    (status : LunariaStatus) : Run LunariaStatus :=
  emit (logger_trace
          ("Processing files with pattern: " ++ Pattern_toString E (pattern file))%string) ;;;
  emit (call_glob (include file) (exclude file)) ;;;
  (if (0 <? List.length (filteredOutPaths file))%nat
   then emit (logger_warn (filteredOutWarning (filteredOutPaths file)))
   else ret tt) ;;;
  dispatch (sched i (Array_sort (sourceFilePaths file))) status.

Fixpoint forFiles (sched : Scheduler) (i : nat) (rest : list FileConfig)
    (status : LunariaStatus) : Run LunariaStatus :=
  match rest with
  | [] => ret status
  | file :: rest' =>
      status' <- forFile sched i file status ;;
      forFiles sched (S i) rest' status'
  end.

Definition getFullStatus (sched : Scheduler) : Run LunariaStatus :=
  forFiles sched 0 (files config) [].

End LunariaInstance.

(* ================================================================== *)
(** ** What a run shows *)

(** The paths given to the history provider, in the order of the calls. *)
Fixpoint historyCalls (t : list Event) : list string :=
  match t with
  | [] => []
  | call_getFileLatestChanges path :: t' => path :: historyCalls t'
  | _ :: t' => historyCalls t'
  end.

(** The paths given to the localizable check, in the order of the calls. *)
Fixpoint localizableChecks (t : list Event) : list string :=
  match t with
  | [] => []
  | call_isFileLocalizable path _ :: t' => path :: localizableChecks t'
  | _ :: t' => localizableChecks t'
  end.

(** [a > b] on the time values of two dates. *)
Definition later (a b : option Z) : Prop :=
  match a, b with
  | Some ta, Some tb => (tb < ta)%Z
  | _, _ => False
  end.

(** The source paths of a report, in its order. *)
Definition sourcePaths {Pattern OptionalKeys : Type}
    (report : LunariaStatus Pattern OptionalKeys) : list string :=
  map (fun entry => src_path (source entry)) report.

Section Observations.

Context {Pattern OptionalKeys : Type}.
Variable E : Externals Pattern OptionalKeys.
Variable config : LunariaConfig Pattern OptionalKeys.

(** The time value of the latest tracked change of a file. *)
Definition trackedTime (git : FileGitData) : option Z :=
  Date_getTime E (date (latestTrackedChange git)).

(** The source path that [getFileStatus] resolves for a path. *)
Definition resolvedSourcePath (path : string) : string :=
  match findFileConfig E config path with
  | Some fileConfig => toSourcePath E config fileConfig path
  | None => path
  end.

(** The entry that [getFileStatus] returns for a path, if any. *)
Definition fileStatusOf (path : string) : list (StatusEntry Pattern OptionalKeys) :=
  match outcome (getFileStatus E config path) with
  | Returned (Some entry) => [entry]
  | _ => []
  end.

(** The paths whose callbacks run in [getFullStatus], over all of [files],
    in the order in which they finish. *)
Fixpoint finishing (sched : Scheduler) (i : nat)
    (rest : list (FileConfig Pattern OptionalKeys)) : list string :=
  match rest with
  | [] => []
  | file :: rest' =>
      sched i (Array_sort (sourceFilePaths E config file)) ++ finishing sched (S i) rest'
  end.

(** The paths handed to [getFileStatus] by [getFullStatus], over all of
    [files]. *)
Definition dispatched : list string :=
  flat_map (sourceFilePaths E config) (files config).

(** [getFileStatus] skips the path: no [files] entry matches it, or it is
    not localizable. *)
Definition skipped (path : string) : Prop :=
  findFileConfig E config path = None
  \/ exists message,
       isFileLocalizable E path (localizableProperty (tracking config))
       = LocalizableError message.

(** A run that ends the process does so from a failed dictionary check: its
    last events are the check, the message of what was thrown if it is an
    [Error], and [process.exit(1)]. *)
Definition fatal {A : Type} (r : Run A) : Prop :=
  outcome r = Exited 1%Z
  /\ exists t optional sp lp e,
       getDictionaryCompletion E optional sp lp = inl e
       /\ events r
          = t ++ call_getDictionaryCompletion sp lp :: events (surface e)
              ++ [process_exit 1%Z].

(** Uniqueness invariant of a report: no two entries have the same source
    path. *)
Definition unique_by_source_path (report : LunariaStatus Pattern OptionalKeys) : Prop :=
  NoDup (sourcePaths report).

(** Missing-before-history: the history provider is not asked about a
    localized path that does not exist on disk. *)
Definition missing_before_history (path : string) : Prop :=
  forall fileConfig locale,
    findFileConfig E config path = Some fileConfig ->
    In locale (locales config) ->
    existsSync E (resolve E (localizedPathOf E config fileConfig path locale)) = false ->
    ~ In (localizedPathOf E config fileConfig path locale)
         (historyCalls (events (getFileStatus E config path))).

End Observations.

(* ================================================================== *)
(** ** More of what a run shows *)

(** The paths given to [existsSync], in the order of the calls. *)
Fixpoint existsChecks (t : list Event) : list string :=
  match t with
  | [] => []
  | call_existsSync path :: t' => path :: existsChecks t'
  | _ :: t' => existsChecks t'
  end.

(** The source and localized paths given to [getDictionaryCompletion], in the
    order of the calls. *)
Fixpoint dictionaryCalls (t : list Event) : list (string * string) :=
  match t with
  | [] => []
  | call_getDictionaryCompletion sourcePath localizedPath :: t' =>
      (sourcePath, localizedPath) :: dictionaryCalls t'
  | _ :: t' => dictionaryCalls t'
  end.

(** The [include] and [ignore] globs given to [glob], in the order of the
    calls. *)
Fixpoint globCalls (t : list Event) : list (list string * list string) :=
  match t with
  | [] => []
  | call_glob include exclude :: t' => (include, exclude) :: globCalls t'
  | _ :: t' => globCalls t'
  end.

(** The messages given to [logger.warn]. *)
Fixpoint warnings (t : list Event) : list string :=
  match t with
  | [] => []
  | logger_warn message :: t' => message :: warnings t'
  | _ :: t' => warnings t'
  end.

(** The events that are not performed by [getFullStatus] itself: everything
    but the calls to [glob], [logger.trace] and [logger.warn]. *)
Definition belowFullStatus (e : Event) : bool :=
  match e with
  | call_glob _ _ | logger_trace _ | logger_warn _ => false
  | _ => true
  end.

Section Traces.

Context {Pattern OptionalKeys : Type}.
Variable E : Externals Pattern OptionalKeys.
Variable config : LunariaConfig Pattern OptionalKeys.

(** What the loop body of [getFullStatus] does for a [files] entry before
    its [Promise.all]: the trace message, the glob, and the warning when
    paths were filtered out. *)
Definition preamble (file : FileConfig Pattern OptionalKeys) : list Event :=
  logger_trace
    ("Processing files with pattern: " ++ Pattern_toString E (pattern file))%string
  :: call_glob (include file) (exclude file)
  :: (if (0 <? List.length (filteredOutPaths E config file))%nat
      then [logger_warn (filteredOutWarning (filteredOutPaths E config file))]
      else []).

(** The events of a run of [getFullStatus] that goes through all of [files],
    from the [i]-th entry on. *)
Fixpoint runTrace (sched : Scheduler) (i : nat)
    (rest : list (FileConfig Pattern OptionalKeys)) : list Event :=
  match rest with
  | [] => []
  | file :: rest' =>
      preamble file
      ++ flat_map (fun path => events (getFileStatus E config path))
                  (sched i (Array_sort (sourceFilePaths E config file)))
      ++ runTrace sched (S i) rest'
  end.

(** The entries of [files] do not overlap: a path kept by one of them does
    not match the pattern of another one, in the source or in a locales
    form. *)
Definition patterns_disjoint : Prop :=
  forall before file after path other,
    files config = before ++ file :: after ->
    In path (sourceFilePaths E config file) ->
    In other (before ++ after) ->
    isFileConfigMatch E config path other = false.

(** The [files] entries that have filtered-out paths. *)
Definition hasFilteredOut (file : FileConfig Pattern OptionalKeys) : bool :=
  (0 <? List.length (filteredOutPaths E config file))%nat.

End Traces.

(* ================================================================== *)
(** ** A project to run the instance on *)

Module Example.

(** Modelled from the spec: [createPathResolver] (files/paths) is not among
    the sources.  The resolver built here follows the contract of the Pattern
    Resolver (a source matcher, a matcher for the target locales, and a pure
    re-substitution of the locale) for the patterns that hold one directory
    per locale: the pattern [docs/] stands for [docs/{locale}/...], and the
    remainder of a path after its locale directory is kept as it is. *)
Definition localeRoot (root code : string) : string := (root ++ code ++ "/")%string.

Definition isLocalePath (root code path : string) : bool :=
  String.prefix (localeRoot root code) path.

Definition remainder (root code path : string) : string :=
  let n := String.length (localeRoot root code) in
  String.substring n (String.length path - n) path.

Definition createPathResolver (root : string) (sourceLocale : Locale)
    (locales : list Locale) : PathResolver :=
  {| isSourcePathMatch := isLocalePath root (lang sourceLocale);
     isLocalesPathMatch := fun path =>
       existsb (fun l => isLocalePath root (lang l) path) locales;
     toPath := fun path toLang =>
       match find (fun l => isLocalePath root (lang l) path) (sourceLocale :: locales) with
       | Some l => (localeRoot root toLang ++ remainder root (lang l) path)%string
       | None => path
       end |}.

(** The file tree: the working directory is [/repo]. *)
Definition tree : list string :=
  [ "/repo/docs/en/b.md"; "/repo/docs/en/a.md"; "/repo/docs/en/draft.md";
    "/repo/docs/fr/a.md"; "/repo/i18n/en/ui.json"; "/repo/i18n/fr/ui.json" ].

Definition resolve (path : string) : string := ("/repo/" ++ path)%string.

Definition existsSync (path : string) : bool :=
  existsb (String.eqb path) tree.

Definition has_glob (g : string) (globs : list string) : bool :=
  existsb (String.eqb g) globs.

(** The glob expander on this tree, for the globs of the configurations
    below. *)
Definition glob (include exclude : list string) : list string :=
  (if has_glob "docs/**/*.md" include
   then filter (fun p => negb (has_glob p exclude))
               [ "docs/en/b.md"; "docs/en/a.md"; "docs/en/draft.md"; "docs/fr/a.md" ]
   else [])
  ++ (if has_glob "i18n/**/*.json" include
      then [ "i18n/en/ui.json"; "i18n/fr/ui.json" ]
      else []).

(** [docs/en/draft.md] opts out of localization with a front matter that
    cannot be read. *)
Definition isFileLocalizable (path : string) (property : option string) : Localizable :=
  if (path =? "docs/en/draft.md")%string
  then LocalizableError "docs/en/draft.md: invalid frontmatter"
  else LocalizableValue true.

(** [i18n/fr/ui.json] is not valid JSON. *)
Definition getDictionaryCompletion (optionalKeys : option (list string))
    (sourcePath localizedPath : string) : Thrown + list string :=
  if (localizedPath =? "i18n/fr/ui.json")%string
  then inl (ThrownError "i18n/fr/ui.json: Unexpected end of JSON input")
  else inr [].

(** The history: the date of the latest tracked change of each path. *)
Definition getFileLatestChanges (path : string) : FileGitData :=
  {| latestTrackedChange :=
       {| date :=
            if (path =? "docs/en/a.md")%string then "2024-03-01T00:00:00.000Z"
            else if (path =? "docs/fr/a.md")%string then "2024-02-01T00:00:00.000Z"
            else if (path =? "docs/en/b.md")%string then "2024-01-01T00:00:00.000Z"
            else if (path =? "i18n/en/ui.json")%string then "2024-01-01T00:00:00.000Z"
            else if (path =? "i18n/fr/ui.json")%string then "2024-01-01T00:00:00.000Z"
            else "" |} |}.

Definition Date_getTime (s : string) : option Z :=
  if (s =? "2024-01-01T00:00:00.000Z")%string then Some 1704067200000%Z
  else if (s =? "2024-02-01T00:00:00.000Z")%string then Some 1706745600000%Z
  else if (s =? "2024-03-01T00:00:00.000Z")%string then Some 1709251200000%Z
  else None.

Definition externals : Externals string (list string) :=
  mkExternals createPathResolver glob resolve existsSync isFileLocalizable
    getDictionaryCompletion getFileLatestChanges Date_getTime
    "No file configuration was found for this path."
    (fun pattern => pattern).

Definition docs : FileConfig string (list string) :=
  {| include := ["docs/**/*.md"];
     exclude := ["docs/en/draft.md"];
     pattern := "docs/";
     type := "universal";
     optionalKeys := None |}.

(** The same group, drafts included. *)
Definition docs_with_drafts : FileConfig string (list string) :=
  {| include := ["docs/**/*.md"];
     exclude := [];
     pattern := "docs/";
     type := "universal";
     optionalKeys := None |}.

Definition i18n : FileConfig string (list string) :=
  {| include := ["i18n/**/*.json"];
     exclude := [];
     pattern := "i18n/";
     type := "dictionary";
     optionalKeys := Some [] |}.

Definition project (files : list (FileConfig string (list string)))
  : LunariaConfig string (list string) :=
  {| sourceLocale := {| lang := "en" |};
     locales := [ {| lang := "fr" |} ];
     files := files;
     tracking := {| localizableProperty := Some "i18nReady" |} |}.

(** The entries of the two source files of [docs] that are localizable:
    [docs/fr/a.md] is older than its source, [docs/fr/b.md] does not exist. *)
Definition git_at (d : string) : FileGitData :=
  {| latestTrackedChange := {| date := d |} |}.

Definition localization_a : StatusLocalizationEntry :=
  {| loc_lang := "fr";
     loc_path := "docs/fr/a.md";
     loc_git := Some (git_at "2024-02-01T00:00:00.000Z");
     loc_status := outdated;
     loc_missingKeys := None |}.

Definition localization_b : StatusLocalizationEntry :=
  {| loc_lang := "fr";
     loc_path := "docs/fr/b.md";
     loc_git := None;
     loc_status := missing;
     loc_missingKeys := None |}.

Definition entry_a : StatusEntry string (list string) :=
  {| entry_include := ["docs/**/*.md"];
     entry_exclude := ["docs/en/draft.md"];
     entry_pattern := "docs/";
     entry_type := "universal";
     entry_optionalKeys := None;
     source := {| src_lang := "en";
                  src_path := "docs/en/a.md";
                  src_git := git_at "2024-03-01T00:00:00.000Z" |};
     localizations := [localization_a] |}.

Definition entry_b : StatusEntry string (list string) :=
  {| entry_include := ["docs/**/*.md"];
     entry_exclude := ["docs/en/draft.md"];
     entry_pattern := "docs/";
     entry_type := "universal";
     entry_optionalKeys := None;
     source := {| src_lang := "en";
                  src_path := "docs/en/b.md";
                  src_git := git_at "2024-01-01T00:00:00.000Z" |};
     localizations := [localization_b] |}.

End Example.


(* ================================================================== *)
(** ** A project with a dictionary *)

Module Dictionaries.

(** The tree has the English and the French dictionary; there is no German
    one. *)
Definition existsSync (path : string) : bool :=
  existsb (String.eqb path) [ "/repo/i18n/en/ui.json"; "/repo/i18n/fr/ui.json" ].

Definition glob (include exclude : list string) : list string :=
  if Example.has_glob "i18n/**/*.json" include
  then [ "i18n/en/ui.json"; "i18n/fr/ui.json" ]
  else [].

(** The French dictionary lacks one key of the English one. *)
Definition getDictionaryCompletion (optionalKeys : option (list string))
    (sourcePath localizedPath : string) : Thrown + list string :=
  if (localizedPath =? "i18n/fr/ui.json")%string then inr ["nav.title"] else inr [].

Definition externals : Externals string (list string) :=
  mkExternals Example.createPathResolver glob Example.resolve existsSync
    (fun _ _ => LocalizableValue true)
    getDictionaryCompletion Example.getFileLatestChanges Example.Date_getTime
    "No file configuration was found for this path."
    (fun pattern => pattern).

Definition project : LunariaConfig string (list string) :=
  {| sourceLocale := {| lang := "en" |};
     locales := [ {| lang := "fr" |}; {| lang := "de" |} ];
     files := [ Example.i18n ];
     tracking := {| localizableProperty := None |} |}.

Definition localization_fr : StatusLocalizationEntry :=
  {| loc_lang := "fr";
     loc_path := "i18n/fr/ui.json";
     loc_git := Some (Example.git_at "2024-01-01T00:00:00.000Z");
     loc_status := up_to_date;
     loc_missingKeys := Some ["nav.title"] |}.

Definition localization_de : StatusLocalizationEntry :=
  {| loc_lang := "de";
     loc_path := "i18n/de/ui.json";
     loc_git := None;
     loc_status := missing;
     loc_missingKeys := None |}.

Definition entry_ui : StatusEntry string (list string) :=
  {| entry_include := ["i18n/**/*.json"];
     entry_exclude := [];
     entry_pattern := "i18n/";
     entry_type := "dictionary";
     entry_optionalKeys := Some [];
     source := {| src_lang := "en";
                  src_path := "i18n/en/ui.json";
                  src_git := Example.git_at "2024-01-01T00:00:00.000Z" |};
     localizations := [localization_fr; localization_de] |}.

End Dictionaries.

(* ================================================================== *)
(** ** A project with two groups that do not overlap *)

Module TwoGroups.

(** The tree and history of [Example], tracked for German: the documents and
    the dictionary, none of which has a German file. *)
Definition project : LunariaConfig string (list string) :=
  {| sourceLocale := {| lang := "en" |};
     locales := [ {| lang := "de" |} ];
     files := [ Example.docs; Example.i18n ];
     tracking := {| localizableProperty := None |} |}.

End TwoGroups.

(* ================================================================== *)
(** * Properties *)

(** ** Runs *)

Section RunFacts.

Context {A B : Type}.

Lemma bind_run (m : Run A) (f : A -> Run B) :
  bind m f =
  match outcome m with
  | Returned a => (events m ++ events (f a), outcome (f a))
  | Exited code => (events m, Exited code)
  end.
Proof.
  destruct m as [t [a | code]]; simpl; [ | reflexivity ].
  destruct (f a); reflexivity.
Qed.

Lemma bind_returned (m : Run A) (f : A -> Run B) (b : B) :
  outcome (bind m f) = Returned b ->
  exists a, outcome m = Returned a /\ outcome (f a) = Returned b
            /\ events (bind m f) = events m ++ events (f a).
Proof.
  rewrite bind_run. destruct (outcome m) as [a | code]; simpl; [ | discriminate ].
  intros H. exists a. auto.
Qed.

Lemma bind_exited (m : Run A) (f : A -> Run B) (code : Z) :
  outcome (bind m f) = Exited code ->
  (outcome m = Exited code /\ events (bind m f) = events m)
  \/ exists a, outcome m = Returned a /\ outcome (f a) = Exited code
               /\ events (bind m f) = events m ++ events (f a).
Proof.
  rewrite bind_run. destruct (outcome m) as [a | c]; simpl; intros H.
  - right. exists a. auto.
  - injection H as ->. left. auto.
Qed.

Lemma events_bind (m : Run A) (f : A -> Run B) :
  events (bind m f) =
  events m ++ match outcome m with
              | Returned a => events (f a)
              | Exited _ => []
              end.
Proof.
  rewrite bind_run. destruct (outcome m); simpl; [ reflexivity | ].
  rewrite app_nil_r. reflexivity.
Qed.

End RunFacts.

Lemma emit_then {B : Type} (e : Event) (k : Run B) :
  (emit e ;;; k) = (e :: events k, outcome k).
Proof. rewrite bind_run. reflexivity. Qed.

Lemma historyCalls_app (t t' : list Event) :
  historyCalls (t ++ t') = historyCalls t ++ historyCalls t'.
Proof.
  induction t as [ | e t IH]; [ reflexivity | ].
  destruct e; simpl; rewrite IH; reflexivity.
Qed.

Lemma localizableChecks_app (t t' : list Event) :
  localizableChecks (t ++ t') = localizableChecks t ++ localizableChecks t'.
Proof.
  induction t as [ | e t IH]; [ reflexivity | ].
  destruct e; simpl; rewrite IH; reflexivity.
Qed.

(** ** [Promise.all] over a mapped array *)

Section PromiseAll.

Context {A B : Type}.
Variable body : A -> Run B.

Lemma Promise_all_map_returned (xs : list A) (ys : list B) :
  outcome (Promise_all_map body xs) = Returned ys ->
  Forall2 (fun x y => outcome (body x) = Returned y) xs ys
  /\ events (Promise_all_map body xs) = flat_map (fun x => events (body x)) xs.
Proof.
  revert ys. induction xs as [ | x xs IH]; simpl; intros ys H.
  - injection H as <-. split; [ constructor | reflexivity ].
  - apply bind_returned in H. destruct H as (y & Hy & H & Hev).
    apply bind_returned in H. destruct H as (ys' & Hys & H & Hev').
    injection H as <-. destruct (IH _ Hys) as [IH1 IH2].
    split; [ constructor; assumption | ].
    rewrite Hev, Hev', IH2. simpl. rewrite app_nil_r. reflexivity.
Qed.

End PromiseAll.

Lemma Forall2_In_l {A B : Type} (R : A -> B -> Prop) (xs : list A) (ys : list B) (x : A) :
  Forall2 R xs ys -> In x xs -> exists y, In y ys /\ R x y.
Proof.
  induction 1 as [ | x' y' xs ys HR _ IH]; simpl; [ tauto | ].
  intros [-> | Hin].
  - exists y'. auto.
  - destruct (IH Hin) as (y & Hy & HRy). exists y. auto.
Qed.

Lemma Forall2_In_r {A B : Type} (R : A -> B -> Prop) (xs : list A) (ys : list B) (y : B) :
  Forall2 R xs ys -> In y ys -> exists x, In x xs /\ R x y.
Proof.
  induction 1 as [ | x' y' xs ys HR _ IH]; simpl; [ tauto | ].
  intros [-> | Hin].
  - exists x'. auto.
  - destruct (IH Hin) as (x & Hx & HRx). exists x. auto.
Qed.

(** ** One file: [getFileStatus] *)

Section FileStatus.

Context {Pattern OptionalKeys : Type}.
Variable E : Externals Pattern OptionalKeys.
Variable config : LunariaConfig Pattern OptionalKeys.

Local Abbreviation FileConfig := (FileConfig Pattern OptionalKeys).
Local Abbreviation StatusEntry := (StatusEntry Pattern OptionalKeys).

Lemma Date_gt_later (a b : string) :
  Date_gt E a b = true <-> later (Date_getTime E a) (Date_getTime E b).
Proof.
  unfold Date_gt, later.
  destruct (Date_getTime E a) as [ta | ], (Date_getTime E b) as [tb | ];
    try (split; [ discriminate | tauto ]).
  apply Z.ltb_lt.
Qed.

Lemma entryTypeData_returned (fc : FileConfig) (sp lp : string) (data : option (list string)) :
  outcome (entryTypeData E fc sp lp) = Returned data ->
  (data <> None -> type fc = "dictionary")
  /\ historyCalls (events (entryTypeData E fc sp lp)) = [].
Proof.
  unfold entryTypeData.
  destruct (String.eqb_spec (type fc) "dictionary") as [Heq | Hne].
  - rewrite emit_then.
    destruct (getDictionaryCompletion E (optionalKeys fc) sp lp) as [e | keys].
    + rewrite bind_run. destruct e; discriminate.
    + intros _. split; [ intros _; exact Heq | reflexivity ].
  - intros H. injection H as <-. split; [ congruence | reflexivity ].
Qed.

(** The events of the callback of a locale, whatever its end. *)
Lemma localizationEntry_checks (fc : FileConfig) (path sp : string) (src : FileGitData)
    (locale : Locale) :
  localizableChecks (events (localizationEntry E config fc path sp src locale)) = [].
Proof.
  unfold localizationEntry. cbv zeta. rewrite !emit_then.
  destruct (existsSync E _); simpl; [ | reflexivity ].
  rewrite bind_run. unfold entryTypeData.
  destruct (type fc =? "dictionary")%string; [ | reflexivity ].
  rewrite emit_then.
  destruct (getDictionaryCompletion E _ _ _) as [[m | ] | keys]; reflexivity.
Qed.

(** What the callback of a locale returns. *)
Lemma localizationEntry_returned (fc : FileConfig) (path sp : string) (src : FileGitData)
    (locale : Locale) (l : StatusLocalizationEntry) :
  outcome (localizationEntry E config fc path sp src locale) = Returned l ->
  loc_lang l = lang locale
  /\ loc_path l = localizedPathOf E config fc path locale
  /\ historyCalls (events (localizationEntry E config fc path sp src locale))
     = [localizedPathOf E config fc path locale]
  /\ (existsSync E (resolve E (loc_path l)) = false ->
      l = mkLocalization (lang locale) (localizedPathOf E config fc path locale)
                         None missing None)
  /\ (existsSync E (resolve E (loc_path l)) = true ->
      loc_git l = Some (getFileLatestChanges E (loc_path l))
      /\ loc_status l =
         (if Date_gt E (date (latestTrackedChange src))
                       (date (latestTrackedChange (getFileLatestChanges E (loc_path l))))
          then outdated else up_to_date)
      /\ (loc_missingKeys l <> None -> type fc = "dictionary")).
Proof.
  unfold localizationEntry. cbv zeta. rewrite !emit_then.
  set (lp := localizedPathOf E config fc path locale).
  destruct (existsSync E (resolve E lp)) eqn:Hex; simpl.
  - intros H. apply bind_returned in H. destruct H as (data & Hdata & H & Hev).
    simpl in H. injection H as <-. simpl.
    apply entryTypeData_returned in Hdata. destruct Hdata as [Hdict Hcalls].
    rewrite Hex. repeat split; try discriminate; auto.
    unfold events in Hev |- *. rewrite Hev, historyCalls_app. unfold events in Hcalls.
    rewrite Hcalls. reflexivity.
  - intros H. injection H as <-. simpl. rewrite Hex.
    repeat split; try discriminate; auto.
Qed.

(** What [getFileStatus] returns when it returns an entry. *)
Lemma getFileStatus_returned (path : string) (entry : StatusEntry) :
  outcome (getFileStatus E config path) = Returned (Some entry) ->
  exists fc value,
    findFileConfig E config path = Some fc
    /\ isFileLocalizable E path (localizableProperty (tracking config))
       = LocalizableValue value
    /\ entry_include entry = include fc
    /\ entry_exclude entry = exclude fc
    /\ entry_pattern entry = pattern fc
    /\ entry_type entry = type fc
    /\ entry_optionalKeys entry = optionalKeys fc
    /\ source entry = mkSource (lang (sourceLocale config)) (toSourcePath E config fc path)
                               (getFileLatestChanges E (toSourcePath E config fc path))
    /\ outcome (Promise_all_map
                  (localizationEntry E config fc path (toSourcePath E config fc path)
                     (getFileLatestChanges E (toSourcePath E config fc path)))
                  (locales config))
       = Returned (localizations entry)
    /\ events (getFileStatus E config path)
       = call_isFileLocalizable path (localizableProperty (tracking config))
         :: call_getFileLatestChanges (toSourcePath E config fc path)
         :: events (Promise_all_map
                      (localizationEntry E config fc path (toSourcePath E config fc path)
                         (getFileLatestChanges E (toSourcePath E config fc path)))
                      (locales config)).
Proof.
  unfold getFileStatus.
  destruct (findFileConfig E config path) as [fc | ]; [ | rewrite emit_then; discriminate ].
  cbv zeta. rewrite emit_then.
  destruct (isFileLocalizable E path _) as [message | value] eqn:Hloc;
    [ rewrite emit_then; discriminate | ].
  rewrite emit_then. simpl. intros H.
  apply bind_returned in H. destruct H as (locs & Hlocs & H & Hev).
  simpl in H. injection H as <-. simpl.
  exists fc, value. repeat split; auto.
  unfold events in Hev |- *. rewrite Hev. simpl. rewrite app_nil_r. reflexivity.
Qed.

(** [getFileStatus] returns no entry exactly for the paths it skips. *)
Lemma getFileStatus_skipped (path : string) :
  skipped E config path ->
  outcome (getFileStatus E config path) = Returned None
  /\ exists message, In (logger_error message) (events (getFileStatus E config path)).
Proof.
  unfold getFileStatus. intros [Hnone | [message Herr]].
  - rewrite Hnone, emit_then. split; [ reflexivity | ].
    exists (FileConfigNotFound_message E). simpl. auto.
  - destruct (findFileConfig E config path) as [fc | ].
    + cbv zeta. rewrite emit_then, Herr, emit_then. split; [ reflexivity | ].
      exists message. simpl. auto.
    + rewrite emit_then. split; [ reflexivity | ].
      exists (FileConfigNotFound_message E). simpl. auto.
Qed.

End FileStatus.

Section FileStatusProperties.

Context {Pattern OptionalKeys : Type}.
Variable E : Externals Pattern OptionalKeys.
Variable config : LunariaConfig Pattern OptionalKeys.

Local Abbreviation FileConfig := (FileConfig Pattern OptionalKeys).
Local Abbreviation StatusEntry := (StatusEntry Pattern OptionalKeys).

Lemma historyCalls_localizations (fc : FileConfig) (path sp : string) (src : FileGitData)
    (ls : list Locale) (locs : list StatusLocalizationEntry) :
  Forall2 (fun locale l =>
             outcome (localizationEntry E config fc path sp src locale) = Returned l)
          ls locs ->
  historyCalls
    (flat_map (fun locale => events (localizationEntry E config fc path sp src locale)) ls)
  = map (localizedPathOf E config fc path) ls.
Proof.
  induction 1 as [ | locale l ls locs Hl _ IH]; [ reflexivity | ].
  simpl. rewrite historyCalls_app, IH.
  apply localizationEntry_returned in Hl.
  destruct Hl as (_ & _ & Hcalls & _). rewrite Hcalls. reflexivity.
Qed.

(** C1, as amended.  When [getFileStatus] returns an entry for a path, every
    target locale whose localized path does not exist on disk has a [missing]
    localization, without git data; and the history provider has been asked
    once about the source path and then once about the localized path of
    every target locale, in the order of [locales], whether or not that path
    exists on disk. *)
Theorem history_once_per_locale (path : string) (fc : FileConfig) (entry : StatusEntry) :
  findFileConfig E config path = Some fc ->
  outcome (getFileStatus E config path) = Returned (Some entry) ->
  historyCalls (events (getFileStatus E config path))
  = toSourcePath E config fc path :: map (localizedPathOf E config fc path) (locales config)
  /\ forall locale,
       In locale (locales config) ->
       existsSync E (resolve E (localizedPathOf E config fc path locale)) = false ->
       In (mkLocalization (lang locale) (localizedPathOf E config fc path locale)
                          None missing None)
          (localizations entry).
Proof.
  intros Hfc H. apply getFileStatus_returned in H.
  destruct H as (fc' & value & Hfc' & _ & _ & _ & _ & _ & _ & _ & Hlocs & Hev).
  rewrite Hfc in Hfc'. injection Hfc' as <-.
  apply Promise_all_map_returned in Hlocs. destruct Hlocs as [Hall Hevs].
  split.
  - rewrite Hev. simpl. rewrite Hevs.
    erewrite historyCalls_localizations by eassumption. reflexivity.
  - intros locale Hin Hex.
    destruct (Forall2_In_l _ _ _ _ Hall Hin) as (l & Hl & Hrun).
    apply localizationEntry_returned in Hrun.
    destruct Hrun as (_ & Hpath & _ & Hmissing & _).
    rewrite Hpath in Hmissing. rewrite <- (Hmissing Hex). exact Hl.
Qed.

(** C3.  In an entry returned by [getFileStatus], a localization whose file
    exists on disk is [outdated] if and only if the time of the latest tracked
    change of the source file is strictly greater than the time of the latest
    tracked change of the localized file, and it is [up_to_date] otherwise,
    equal times included. *)
Theorem outdated_iff_source_later (path : string) (entry : StatusEntry)
    (l : StatusLocalizationEntry) :
  outcome (getFileStatus E config path) = Returned (Some entry) ->
  In l (localizations entry) ->
  existsSync E (resolve E (loc_path l)) = true ->
  loc_git l = Some (getFileLatestChanges E (loc_path l))
  /\ src_git (source entry) = getFileLatestChanges E (src_path (source entry))
  /\ (loc_status l = outdated <->
      later (trackedTime E (getFileLatestChanges E (src_path (source entry))))
            (trackedTime E (getFileLatestChanges E (loc_path l))))
  /\ (loc_status l = up_to_date <->
      ~ later (trackedTime E (getFileLatestChanges E (src_path (source entry))))
              (trackedTime E (getFileLatestChanges E (loc_path l)))).
Proof.
  intros H Hin Hex. apply getFileStatus_returned in H.
  destruct H as (fc & value & _ & _ & _ & _ & _ & _ & _ & Hsrc & Hlocs & _).
  apply Promise_all_map_returned in Hlocs. destruct Hlocs as [Hall _].
  destruct (Forall2_In_r _ _ _ _ Hall Hin) as (locale & _ & Hrun).
  apply localizationEntry_returned in Hrun.
  destruct Hrun as (_ & _ & _ & _ & Hexists).
  destruct (Hexists Hex) as (Hgit & Hstatus & _).
  rewrite Hsrc. simpl. unfold trackedTime.
  rewrite <- Date_gt_later. rewrite Hstatus.
  destruct (Date_gt E _ _); repeat split; auto; try discriminate; try congruence.
Qed.

(** C8.  When the first [files] entry that matches a path, in the source or
    in a locale form, is followed by any other entries, matching or not,
    [findFileConfig] answers that first entry; [getFileStatus] goes on to the
    localizable check without logging anything about the choice. *)
Theorem findFileConfig_first (path : string) (before : list FileConfig) (fc : FileConfig)
    (after : list FileConfig) :
  files config = before ++ fc :: after ->
  isFileConfigMatch E config path fc = true ->
  (forall file, In file before -> isFileConfigMatch E config path file = false) ->
  findFileConfig E config path = Some fc
  /\ exists t,
       events (getFileStatus E config path)
       = call_isFileLocalizable path (localizableProperty (tracking config)) :: t.
Proof.
  intros Hfiles Hfc Hbefore.
  assert (Hfind : findFileConfig E config path = Some fc).
  { unfold findFileConfig. rewrite Hfiles. clear Hfiles.
    induction before as [ | file before IH]; simpl.
    - rewrite Hfc. reflexivity.
    - rewrite (Hbefore file) by (simpl; auto).
      apply IH. intros f Hf. apply Hbefore. simpl. auto. }
  split; [ exact Hfind | ].
  unfold getFileStatus. rewrite Hfind. cbv zeta. rewrite emit_then.
  eexists. reflexivity.
Qed.

Lemma Promise_all_map_checks (fc : FileConfig) (path sp : string) (src : FileGitData)
    (ls : list Locale) :
  localizableChecks
    (events (Promise_all_map (localizationEntry E config fc path sp src) ls)) = [].
Proof.
  induction ls as [ | locale ls IH]; [ reflexivity | ].
  simpl Promise_all_map.
  rewrite events_bind, localizableChecks_app, localizationEntry_checks.
  destruct (outcome (localizationEntry E config fc path sp src locale)); [ | reflexivity ].
  rewrite events_bind, localizableChecks_app, IH.
  destruct (outcome (Promise_all_map _ ls)); reflexivity.
Qed.

(** C9.  For a path that some [files] entry matches, [getFileStatus] runs the
    localizable check once, on the path it was given; when the source path
    resolved from it is another path, that source path is never checked. *)
Theorem localizable_check_on_given_path (path : string) (fc : FileConfig) :
  findFileConfig E config path = Some fc ->
  localizableChecks (events (getFileStatus E config path)) = [path]
  /\ (toSourcePath E config fc path <> path ->
      ~ In (toSourcePath E config fc path)
           (localizableChecks (events (getFileStatus E config path)))).
Proof.
  intros Hfc.
  assert (H : localizableChecks (events (getFileStatus E config path)) = [path]).
  { unfold getFileStatus. rewrite Hfc. cbv zeta. rewrite emit_then.
    destruct (isFileLocalizable E path _) as [message | value].
    - rewrite emit_then. reflexivity.
    - rewrite emit_then. cbn [events fst localizableChecks].
      f_equal.
      rewrite events_bind, localizableChecks_app, Promise_all_map_checks.
      destruct (outcome (Promise_all_map _ _)); reflexivity. }
  split; [ exact H | ].
  rewrite H. simpl. intros Hne [Heq | []]. congruence.
Qed.

(** C10.  An entry returned by [getFileStatus] has, next to [source] and
    [localizations], the [include], [exclude], [pattern], [type] and
    [optionalKeys] of the [files] entry found for the path; [optionalKeys] is
    there exactly when that entry defines it. *)
Theorem entry_carries_file_config (path : string) (entry : StatusEntry) :
  outcome (getFileStatus E config path) = Returned (Some entry) ->
  exists fc,
    findFileConfig E config path = Some fc
    /\ entry_include entry = include fc
    /\ entry_exclude entry = exclude fc
    /\ entry_pattern entry = pattern fc
    /\ entry_type entry = type fc
    /\ entry_optionalKeys entry = optionalKeys fc.
Proof.
  intros H. apply getFileStatus_returned in H.
  destruct H as (fc & value & Hfc & _ & Hi & He & Hp & Ht & Ho & _).
  exists fc. auto 10.
Qed.

End FileStatusProperties.

(** ** The whole report: [getFullStatus] *)

Section FullStatus.

Context {Pattern OptionalKeys : Type}.
Variable E : Externals Pattern OptionalKeys.
Variable config : LunariaConfig Pattern OptionalKeys.

Local Abbreviation FileConfig := (FileConfig Pattern OptionalKeys).
Local Abbreviation StatusEntry := (StatusEntry Pattern OptionalKeys).
Local Abbreviation LunariaStatus := (LunariaStatus Pattern OptionalKeys).

Lemma fatal_bind_left {A B : Type} (m : Run A) (f : A -> Run B) :
  fatal E m -> fatal E (bind m f).
Proof.
  intros [Hout Hev]. unfold fatal. rewrite bind_run, Hout. auto.
Qed.

Lemma fatal_bind_right {A B : Type} (m : Run A) (f : A -> Run B) (a : A) :
  outcome m = Returned a -> fatal E (f a) -> fatal E (bind m f).
Proof.
  intros Hm [Hout (t & optional & sp & lp & e & He & Hev)].
  unfold fatal. rewrite bind_run, Hm. split; [ exact Hout | ].
  exists (events m ++ t), optional, sp, lp, e. split; [ exact He | ].
  cbn [events fst]. fold (events (f a)). rewrite Hev, app_assoc. reflexivity.
Qed.

Lemma bind_exited_fatal {A B : Type} (m : Run A) (f : A -> Run B) (code : Z) :
  (forall c, outcome m = Exited c -> fatal E m) ->
  (forall a c, outcome m = Returned a -> outcome (f a) = Exited c -> fatal E (f a)) ->
  outcome (bind m f) = Exited code -> fatal E (bind m f).
Proof.
  intros Hm Hf H. apply bind_exited in H.
  destruct H as [[H _] | (a & Ha & H & _)].
  - apply fatal_bind_left. eapply Hm. exact H.
  - eapply fatal_bind_right; [ exact Ha | ]. eapply Hf; eassumption.
Qed.

Lemma entryTypeData_fatal (fc : FileConfig) (sp lp : string) (code : Z) :
  outcome (entryTypeData E fc sp lp) = Exited code ->
  fatal E (entryTypeData E fc sp lp).
Proof.
  unfold entryTypeData.
  destruct (type fc =? "dictionary")%string; [ | discriminate ].
  rewrite emit_then.
  destruct (getDictionaryCompletion E (optionalKeys fc) sp lp) as [e | keys] eqn:He;
    [ | discriminate ].
  intros _. split.
  - cbn [outcome snd]. rewrite bind_run. destruct e; reflexivity.
  - exists [], (optionalKeys fc), sp, lp, e. split; [ exact He | ].
    cbn [events fst app]. f_equal. fold (events (surface e ;;; @process_exit_ (option (list string)) 1%Z)).
    rewrite events_bind. destruct e; reflexivity.
Qed.

Lemma localizationEntry_fatal (fc : FileConfig) (path sp : string) (src : FileGitData)
    (locale : Locale) (code : Z) :
  outcome (localizationEntry E config fc path sp src locale) = Exited code ->
  fatal E (localizationEntry E config fc path sp src locale).
Proof.
  unfold localizationEntry. cbv zeta.
  intros H. eapply bind_exited_fatal; [ discriminate | | exact H ].
  intros _ c _ H1. eapply bind_exited_fatal; [ discriminate | | exact H1 ].
  intros _ c' _. destruct (negb _); [ discriminate | ].
  intros H2. eapply bind_exited_fatal; [ | discriminate | exact H2 ].
  intros c''. apply entryTypeData_fatal.
Qed.

Lemma Promise_all_map_fatal {A B : Type} (body : A -> Run B) (xs : list A) (code : Z) :
  (forall x c, outcome (body x) = Exited c -> fatal E (body x)) ->
  outcome (Promise_all_map body xs) = Exited code ->
  fatal E (Promise_all_map body xs).
Proof.
  intros Hbody. revert code. induction xs as [ | x xs IH]; intros code; [ discriminate | ].
  simpl. intros H. eapply bind_exited_fatal; [ apply Hbody | | exact H ].
  intros y c _ H1. eapply bind_exited_fatal; [ apply IH | discriminate | exact H1 ].
Qed.

Lemma getFileStatus_fatal (path : string) (code : Z) :
  outcome (getFileStatus E config path) = Exited code ->
  fatal E (getFileStatus E config path).
Proof.
  unfold getFileStatus.
  destruct (findFileConfig E config path) as [fc | ];
    [ | rewrite emit_then; discriminate ].
  cbv zeta. intros H. eapply bind_exited_fatal; [ discriminate | | exact H ].
  intros _ c _. destruct (isFileLocalizable E path _);
    [ rewrite emit_then; discriminate | ].
  intros H1. eapply bind_exited_fatal; [ discriminate | | exact H1 ].
  intros _ c' _ H2. eapply bind_exited_fatal; [ | discriminate | exact H2 ].
  intros c''. apply Promise_all_map_fatal. intros locale c3.
  apply localizationEntry_fatal.
Qed.

Lemma pushFileStatus_fatal (status : LunariaStatus) (path : string) (code : Z) :
  outcome (pushFileStatus E config status path) = Exited code ->
  fatal E (pushFileStatus E config status path).
Proof.
  unfold pushFileStatus. intros H.
  eapply bind_exited_fatal; [ intros c; apply getFileStatus_fatal | | exact H ].
  intros [entry | ] c _; discriminate.
Qed.

(** What a callback of [getFullStatus] leaves in [status]. *)
Lemma pushFileStatus_returned (status status' : LunariaStatus) (path : string) :
  outcome (pushFileStatus E config status path) = Returned status' ->
  status' = status ++ fileStatusOf E config path
  /\ exists o, outcome (getFileStatus E config path) = Returned o.
Proof.
  unfold pushFileStatus, fileStatusOf. intros H.
  apply bind_returned in H. destruct H as (o & Ho & H & _).
  rewrite Ho. split; [ | eauto ].
  destruct o as [entry | ]; injection H as <-; [ reflexivity | ].
  rewrite app_nil_r. reflexivity.
Qed.

Lemma dispatch_returned (paths : list string) (status status' : LunariaStatus) :
  outcome (dispatch E config paths status) = Returned status' ->
  status' = status ++ flat_map (fileStatusOf E config) paths
  /\ Forall (fun path => exists o, outcome (getFileStatus E config path) = Returned o) paths.
Proof.
  unfold dispatch. revert status.
  induction paths as [ | path paths IH]; simpl; intros status H.
  - injection H as <-. rewrite app_nil_r. auto.
  - apply bind_returned in H. destruct H as (status1 & H1 & H & _).
    apply pushFileStatus_returned in H1. destruct H1 as [-> Ho].
    apply IH in H. destruct H as [-> Hall].
    rewrite <- app_assoc. auto.
Qed.

Lemma dispatch_fatal (paths : list string) (status : LunariaStatus) (code : Z) :
  outcome (dispatch E config paths status) = Exited code ->
  fatal E (dispatch E config paths status).
Proof.
  unfold dispatch. revert status code.
  induction paths as [ | path paths IH]; simpl; intros status code H; [ discriminate | ].
  eapply bind_exited_fatal; [ intros c; apply pushFileStatus_fatal | | exact H ].
  intros status1 c _. apply IH.
Qed.

(** The loop body adds its log and glob events in front of the callbacks. *)
Lemma forFile_outcome (sched : Scheduler) (i : nat) (file : FileConfig)
    (status : LunariaStatus) :
  outcome (forFile E config sched i file status)
  = outcome (dispatch E config (sched i (Array_sort (sourceFilePaths E config file))) status).
Proof.
  unfold forFile. rewrite !emit_then. cbn [outcome snd].
  rewrite bind_run. destruct (0 <? _)%nat; reflexivity.
Qed.

Lemma forFile_fatal (sched : Scheduler) (i : nat) (file : FileConfig)
    (status : LunariaStatus) (code : Z) :
  outcome (forFile E config sched i file status) = Exited code ->
  fatal E (forFile E config sched i file status).
Proof.
  unfold forFile. intros H.
  eapply bind_exited_fatal; [ discriminate | | exact H ].
  intros _ c _ H1. eapply bind_exited_fatal; [ discriminate | | exact H1 ].
  intros _ c' _ H2. eapply bind_exited_fatal; [ | | exact H2 ].
  - intros c''. destruct (0 <? _)%nat; discriminate.
  - intros _ c'' _. apply dispatch_fatal.
Qed.

Lemma forFiles_returned (sched : Scheduler) (i : nat) (rest : list FileConfig)
    (status status' : LunariaStatus) :
  outcome (forFiles E config sched i rest status) = Returned status' ->
  status' = status ++ flat_map (fileStatusOf E config) (finishing E config sched i rest)
  /\ Forall (fun path => exists o, outcome (getFileStatus E config path) = Returned o)
            (finishing E config sched i rest).
Proof.
  revert i status. induction rest as [ | file rest IH]; simpl; intros i status H.
  - injection H as <-. rewrite app_nil_r. auto.
  - apply bind_returned in H. destruct H as (status1 & H1 & H & _).
    rewrite forFile_outcome in H1. apply dispatch_returned in H1.
    destruct H1 as [-> Hall1]. apply IH in H. destruct H as [-> Hall].
    rewrite flat_map_app, <- app_assoc. split; [ reflexivity | ].
    apply Forall_app. auto.
Qed.

Lemma forFiles_fatal (sched : Scheduler) (i : nat) (rest : list FileConfig)
    (status : LunariaStatus) (code : Z) :
  outcome (forFiles E config sched i rest status) = Exited code ->
  fatal E (forFiles E config sched i rest status).
Proof.
  revert i status code.
  induction rest as [ | file rest IH]; simpl; intros i status code H; [ discriminate | ].
  eapply bind_exited_fatal; [ intros c; apply forFile_fatal | | exact H ].
  intros status1 c _. apply IH.
Qed.

(** The report is made of the entries of the paths whose callbacks ran, in
    the order in which they finished. *)
Lemma getFullStatus_returned (sched : Scheduler) (report : LunariaStatus) :
  outcome (getFullStatus E config sched) = Returned report ->
  report = flat_map (fileStatusOf E config) (finishing E config sched 0 (files config))
  /\ Forall (fun path => exists o, outcome (getFileStatus E config path) = Returned o)
            (finishing E config sched 0 (files config)).
Proof. unfold getFullStatus. intros H. apply forFiles_returned in H. exact H. Qed.

Lemma finishing_dispatched (sched : Scheduler) (i : nat) (rest : list FileConfig) :
  fair sched ->
  Permutation (finishing E config sched i rest)
              (flat_map (sourceFilePaths E config) rest).
Proof.
  intros Hfair. revert i. induction rest as [ | file rest IH]; simpl; intros i.
  - constructor.
  - apply Permutation_app; [ | apply IH ].
    rewrite (Hfair i). symmetry. apply PathSort.Permuted_sort.
Qed.

Lemma In_fileStatusOf (path : string) (entry : StatusEntry) :
  In entry (fileStatusOf E config path) ->
  outcome (getFileStatus E config path) = Returned (Some entry).
Proof.
  unfold fileStatusOf.
  destruct (outcome (getFileStatus E config path)) as [[e | ] | c]; simpl; try tauto.
  intros [-> | []]. reflexivity.
Qed.

Lemma report_entry (sched : Scheduler) (report : LunariaStatus) (entry : StatusEntry) :
  outcome (getFullStatus E config sched) = Returned report ->
  In entry report ->
  exists path, outcome (getFileStatus E config path) = Returned (Some entry).
Proof.
  intros H Hin. apply getFullStatus_returned in H. destruct H as [-> _].
  apply in_flat_map in Hin. destruct Hin as (path & _ & Hin).
  exists path. apply In_fileStatusOf. exact Hin.
Qed.

Lemma In_finishing (sched : Scheduler) (file : FileConfig) (path : string) :
  fair sched ->
  In file (files config) ->
  In path (sourceFilePaths E config file) ->
  In path (finishing E config sched 0 (files config)).
Proof.
  intros Hfair Hfile Hpath.
  apply (Permutation_in path (Permutation_sym (finishing_dispatched sched 0 _ Hfair))).
  apply in_flat_map. exists file. auto.
Qed.

(** C4.  Take a path handed to [getFileStatus] by [getFullStatus] whose
    [files] entry is of type dictionary, which is localizable, and a target
    locale whose localized file exists and for which [getDictionaryCompletion]
    throws an [Error].  The callback of that locale logs the message of the
    error and calls [process.exit(1)]; and the whole run, however its
    callbacks are scheduled, ends with exit code 1 instead of returning a
    report, its last events being a failed dictionary check, the message of
    what it threw, and [process.exit(1)]. *)
Theorem parse_error_is_fatal (sched : Scheduler) (file fc : FileConfig) (path : string)
    (locale : Locale) (value : bool) (message : string) :
  fair sched ->
  In file (files config) ->
  In path (sourceFilePaths E config file) ->
  findFileConfig E config path = Some fc ->
  type fc = "dictionary" ->
  isFileLocalizable E path (localizableProperty (tracking config)) = LocalizableValue value ->
  In locale (locales config) ->
  existsSync E (resolve E (localizedPathOf E config fc path locale)) = true ->
  getDictionaryCompletion E (optionalKeys fc) (toSourcePath E config fc path)
    (localizedPathOf E config fc path locale) = inl (ThrownError message) ->
  localizationEntry E config fc path (toSourcePath E config fc path)
    (getFileLatestChanges E (toSourcePath E config fc path)) locale
  = ([ call_getFileLatestChanges (localizedPathOf E config fc path locale);
       call_existsSync (resolve E (localizedPathOf E config fc path locale));
       call_getDictionaryCompletion (toSourcePath E config fc path)
         (localizedPathOf E config fc path locale);
       logger_error message;
       process_exit 1%Z ],
     Exited 1%Z)
  /\ fatal E (getFullStatus E config sched)
  /\ forall report, outcome (getFullStatus E config sched) <> Returned report.
Proof.
  intros Hfair Hfile Hpath Hfc Hdict Hloc Hlocale Hex Hthrow.
  assert (Hcallback :
    localizationEntry E config fc path (toSourcePath E config fc path)
      (getFileLatestChanges E (toSourcePath E config fc path)) locale
    = ([ call_getFileLatestChanges (localizedPathOf E config fc path locale);
         call_existsSync (resolve E (localizedPathOf E config fc path locale));
         call_getDictionaryCompletion (toSourcePath E config fc path)
           (localizedPathOf E config fc path locale);
         logger_error message;
         process_exit 1%Z ],
       Exited 1%Z)).
  { unfold localizationEntry. cbv zeta. rewrite !emit_then, Hex. cbn [negb].
    unfold entryTypeData. rewrite Hdict. cbn [String.eqb Ascii.eqb Bool.eqb].
    rewrite Hthrow. reflexivity. }
  assert (Hnot : forall report, outcome (getFullStatus E config sched) <> Returned report).
  { intros report H. apply getFullStatus_returned in H. destruct H as [_ Hall].
    rewrite Forall_forall in Hall.
    destruct (Hall path (In_finishing sched file path Hfair Hfile Hpath)) as [o Ho].
    revert Ho. unfold getFileStatus. rewrite Hfc. cbv zeta.
    rewrite emit_then, Hloc, emit_then. cbn [outcome snd]. intros Ho.
    apply bind_returned in Ho. destruct Ho as (locs & Hlocs & _).
    apply Promise_all_map_returned in Hlocs. destruct Hlocs as [Hall2 _].
    destruct (Forall2_In_l _ _ _ _ Hall2 Hlocale) as (l & _ & Hl).
    rewrite Hcallback in Hl. discriminate. }
  split; [ exact Hcallback | ]. split; [ | exact Hnot ].
  destruct (outcome (getFullStatus E config sched)) as [report | code] eqn:Hout.
  - elim (Hnot report). reflexivity.
  - exact (forFiles_fatal sched 0 (files config) [] code Hout).
Qed.

Lemma dispatch_skipped (path : string) (paths : list string) (status : LunariaStatus) :
  skipped E config path ->
  outcome (dispatch E config (path :: paths) status)
  = outcome (dispatch E config paths status).
Proof.
  intros Hskip. apply getFileStatus_skipped in Hskip. destruct Hskip as [Hout _].
  unfold dispatch. simpl. unfold pushFileStatus at 1.
  rewrite bind_run. rewrite bind_run, Hout. reflexivity.
Qed.

(** C5.  A path that no [files] entry matches, or that is not localizable,
    makes [getFileStatus] log an error and return no entry; among the
    callbacks of a [Promise.all] of [getFullStatus], whatever comes before and
    after it, the resulting status is the one obtained without that path, so
    the run goes on and the entries of the other files are the same. *)
Theorem skipped_file_is_isolated (path : string) :
  skipped E config path ->
  outcome (getFileStatus E config path) = Returned None
  /\ (exists message, In (logger_error message) (events (getFileStatus E config path)))
  /\ forall before after status,
       outcome (dispatch E config (before ++ path :: after) status)
       = outcome (dispatch E config (before ++ after) status).
Proof.
  intros Hskip.
  destruct (getFileStatus_skipped E config path Hskip) as [Hout Hlog].
  repeat split; [ exact Hout | exact Hlog | ].
  intros before after. induction before as [ | p before IH]; intros status.
  - simpl app. apply dispatch_skipped. exact Hskip.
  - unfold dispatch. simpl. rewrite !bind_run.
    destruct (outcome (pushFileStatus E config status p)) as [status1 | code];
      [ | reflexivity ].
    cbn [outcome snd]. apply IH.
Qed.

Lemma sourcePaths_fileStatusOf (paths : list string) (x : string) :
  In x (sourcePaths (flat_map (fileStatusOf E config) paths)) ->
  In x (map (resolvedSourcePath E config) paths).
Proof.
  unfold sourcePaths. rewrite in_map_iff. intros (entry & <- & Hin).
  apply in_flat_map in Hin. destruct Hin as (path & Hpath & Hentry).
  apply in_map_iff. exists path. split; [ | exact Hpath ].
  apply In_fileStatusOf in Hentry. apply getFileStatus_returned in Hentry.
  destruct Hentry as (fc & value & Hfc & _ & _ & _ & _ & _ & _ & Hsrc & _).
  unfold resolvedSourcePath. rewrite Hfc, Hsrc. reflexivity.
Qed.

Lemma fileStatusOf_cases (path : string) :
  fileStatusOf E config path = []
  \/ exists entry,
       fileStatusOf E config path = [entry]
       /\ src_path (source entry) = resolvedSourcePath E config path.
Proof.
  destruct (fileStatusOf E config path) as [ | entry rest] eqn:Hstatus; [ auto | right ].
  assert (Hin : In entry (fileStatusOf E config path)) by (rewrite Hstatus; simpl; auto).
  apply In_fileStatusOf in Hin.
  unfold fileStatusOf in Hstatus. rewrite Hin in Hstatus. injection Hstatus as <-.
  exists entry. split; [ reflexivity | ].
  apply getFileStatus_returned in Hin.
  destruct Hin as (fc & value & Hfc & _ & _ & _ & _ & _ & _ & Hsrc & _).
  unfold resolvedSourcePath. rewrite Hfc, Hsrc. reflexivity.
Qed.

Lemma NoDup_sourcePaths (paths : list string) :
  NoDup (map (resolvedSourcePath E config) paths) ->
  NoDup (sourcePaths (flat_map (fileStatusOf E config) paths)).
Proof.
  induction paths as [ | path paths IH]; simpl; intros H; [ constructor | ].
  inversion H as [ | x xs Hnotin Hnodup]; subst.
  destruct (fileStatusOf_cases path) as [-> | (entry & -> & Hsrc)]; simpl.
  - apply IH. exact Hnodup.
  - constructor; [ | apply IH; exact Hnodup ].
    rewrite Hsrc. intros Hin. apply Hnotin.
    apply sourcePaths_fileStatusOf. exact Hin.
Qed.

Lemma find_first_match {A : Type} (f : A -> bool) (before : list A) (x : A)
    (after : list A) :
  f x = true ->
  (forall y, In y before -> f y = false) ->
  find f (before ++ x :: after) = Some x.
Proof.
  intros Hx. induction before as [ | y before IH]; simpl; intros Hbefore.
  - rewrite Hx. reflexivity.
  - rewrite (Hbefore y) by auto. apply IH. intros z Hz. apply Hbefore. auto.
Qed.

Lemma kept_matches (file : FileConfig) (path : string) :
  In path (sourceFilePaths E config file) ->
  isSourcePathMatch (getPathResolver E config (pattern file)) path = true
  /\ isFileConfigMatch E config path file = true.
Proof.
  unfold sourceFilePaths. intros H. apply filter_In in H. destruct H as [_ H].
  split; [ exact H | ]. unfold isFileConfigMatch. cbv zeta. rewrite H. reflexivity.
Qed.

Lemma resolvedSourcePath_kept (file : FileConfig) (path : string) :
  patterns_disjoint E config ->
  In file (files config) ->
  In path (sourceFilePaths E config file) ->
  resolvedSourcePath E config path = path.
Proof.
  intros Hdisjoint Hfile Hpath.
  destruct (in_split _ _ Hfile) as (before & after & Hfiles).
  destruct (kept_matches file path Hpath) as [Hsource Hmatch].
  unfold resolvedSourcePath, findFileConfig. rewrite Hfiles.
  rewrite (find_first_match _ before file after Hmatch).
  - unfold toSourcePath. cbv zeta. rewrite Hsource. reflexivity.
  - intros other Hother.
    apply (Hdisjoint before file after path other Hfiles Hpath).
    apply in_or_app. auto.
Qed.

Lemma NoDup_kept (before rest : list FileConfig) :
  (forall file, In file (files config) ->
                NoDup (glob E (include file) (exclude file))) ->
  patterns_disjoint E config ->
  files config = before ++ rest ->
  NoDup (flat_map (sourceFilePaths E config) rest).
Proof.
  intros Hglob Hdisjoint. revert before.
  induction rest as [ | file rest IH]; intros before Hfiles; simpl; [ constructor | ].
  apply NoDup_app.
  - unfold sourceFilePaths. apply NoDup_filter. apply Hglob.
    rewrite Hfiles. apply in_or_app. simpl. auto.
  - apply (IH (before ++ [file])). rewrite <- app_assoc. exact Hfiles.
  - intros path Hpath Hrest. apply in_flat_map in Hrest.
    destruct Hrest as (other & Hother & Hkept).
    destruct (kept_matches other path Hkept) as [_ Hmatch].
    rewrite (Hdisjoint before file rest path other Hfiles Hpath) in Hmatch;
      [ discriminate | ].
    apply in_or_app. auto.
Qed.

Lemma In_sourcePaths (paths : list string) (path : string) (entry : StatusEntry) :
  In path paths ->
  outcome (getFileStatus E config path) = Returned (Some entry) ->
  In (src_path (source entry)) (sourcePaths (flat_map (fileStatusOf E config) paths)).
Proof.
  intros Hin Hentry. unfold sourcePaths. apply in_map_iff.
  exists entry. split; [ reflexivity | ]. apply in_flat_map. exists path. split; [ exact Hin | ].
  unfold fileStatusOf. rewrite Hentry. simpl. auto.
Qed.

Lemma NoDup_app_disjoint {A : Type} (l1 l2 : list A) (x : A) :
  NoDup (l1 ++ l2) -> In x l1 -> In x l2 -> False.
Proof.
  induction l1 as [ | y l1 IH]; simpl; intros Hnodup H1 H2; [ exact H1 | ].
  inversion Hnodup as [ | z zs Hnotin Hrest]; subst.
  destruct H1 as [-> | H1].
  - apply Hnotin. apply in_or_app. auto.
  - exact (IH Hrest H1 H2).
Qed.

(** C6, as amended.  Under a fair schedule, the report has, up to order, one
    entry for each time a path is kept by the glob and the source pattern of
    an entry of [files] and is not skipped.  Its entries are unique by source
    path when [glob] gives each path once and the entries of [files] do not
    overlap; when a path that gets an entry is kept by two entries of
    [files], the report has that source path more than once. *)
Theorem entries_unique_without_overlap (sched : Scheduler) (report : LunariaStatus) :
  fair sched ->
  outcome (getFullStatus E config sched) = Returned report ->
  Permutation report (flat_map (fileStatusOf E config) (dispatched E config))
  /\ ((forall file, In file (files config) ->
                    NoDup (glob E (include file) (exclude file))) ->
      patterns_disjoint E config ->
      unique_by_source_path report)
  /\ (forall before file between other after path entry,
        files config = before ++ file :: between ++ other :: after ->
        In path (sourceFilePaths E config file) ->
        In path (sourceFilePaths E config other) ->
        outcome (getFileStatus E config path) = Returned (Some entry) ->
        ~ unique_by_source_path report).
Proof.
  intros Hfair H. apply getFullStatus_returned in H. destruct H as [-> _].
  pose proof (finishing_dispatched sched 0 (files config) Hfair) as Hperm.
  fold (dispatched E config) in Hperm.
  assert (Hreport : Permutation
                      (flat_map (fileStatusOf E config)
                         (finishing E config sched 0 (files config)))
                      (flat_map (fileStatusOf E config) (dispatched E config)))
    by (apply Permutation_flat_map; exact Hperm).
  split; [ exact Hreport | ]. unfold unique_by_source_path. split.
  - intros Hglob Hdisjoint. apply NoDup_sourcePaths.
    eapply Permutation_NoDup; [ apply Permutation_map; symmetry; exact Hperm | ].
    assert (Hid : map (resolvedSourcePath E config) (dispatched E config)
                  = dispatched E config).
    { rewrite <- (map_id (dispatched E config)) at 2. apply map_ext_in.
      intros path Hpath. unfold dispatched in Hpath. apply in_flat_map in Hpath.
      destruct Hpath as (file & Hfile & Hkept).
      exact (resolvedSourcePath_kept file path Hdisjoint Hfile Hkept). }
    rewrite Hid. exact (NoDup_kept [] (files config) Hglob Hdisjoint eq_refl).
  - intros before file between other after path entry Hfiles Hfirst Hsecond Hentry Hnodup.
    assert (Hnodup' : NoDup (sourcePaths
                               (flat_map (fileStatusOf E config) (dispatched E config)))).
    { eapply Permutation_NoDup; [ | exact Hnodup ].
      unfold sourcePaths. apply Permutation_map. exact Hreport. }
    unfold dispatched in Hnodup'. rewrite Hfiles in Hnodup'.
    replace (before ++ file :: between ++ other :: after)
      with ((before ++ [file]) ++ (between ++ other :: after)) in Hnodup'
      by (rewrite <- app_assoc; reflexivity).
    rewrite (flat_map_app (sourceFilePaths E config)) in Hnodup'.
    rewrite (flat_map_app (fileStatusOf E config)) in Hnodup'.
    unfold sourcePaths in Hnodup'. rewrite map_app in Hnodup'.
    refine (NoDup_app_disjoint _ _ (src_path (source entry)) Hnodup' _ _).
    + apply (In_sourcePaths _ path entry); [ | exact Hentry ].
      apply in_flat_map. exists file. split; [ | exact Hfirst ].
      apply in_or_app. right. simpl. auto.
    + apply (In_sourcePaths _ path entry); [ | exact Hentry ].
      apply in_flat_map. exists other. split; [ | exact Hsecond ].
      apply in_or_app. right. simpl. auto.
Qed.

(** C7.  In every localization of every entry of a report, the git data is
    absent exactly when the status is [missing], and [missingKeys] is present
    only when the entry is of type dictionary. *)
Theorem localization_fields (sched : Scheduler) (report : LunariaStatus)
    (entry : StatusEntry) (l : StatusLocalizationEntry) :
  outcome (getFullStatus E config sched) = Returned report ->
  In entry report ->
  In l (localizations entry) ->
  (loc_git l = None <-> loc_status l = missing)
  /\ (loc_missingKeys l <> None -> entry_type entry = "dictionary").
Proof.
  intros H Hentry Hl.
  destruct (report_entry sched report entry H Hentry) as [path Hpath].
  apply getFileStatus_returned in Hpath.
  destruct Hpath as (fc & value & _ & _ & _ & _ & _ & Htype & _ & _ & Hlocs & _).
  apply Promise_all_map_returned in Hlocs. destruct Hlocs as [Hall _].
  destruct (Forall2_In_r _ _ _ _ Hall Hl) as (locale & _ & Hrun).
  apply localizationEntry_returned in Hrun.
  destruct Hrun as (_ & _ & _ & Hmissing & Hexists).
  rewrite Htype.
  destruct (existsSync E (resolve E (loc_path l))).
  - destruct (Hexists eq_refl) as (Hgit & Hstatus & Hkeys).
    split; [ | exact Hkeys ].
    rewrite Hgit, Hstatus. destruct (Date_gt E _ _); split; discriminate.
  - rewrite (Hmissing eq_refl). simpl. split; [ tauto | congruence ].
Qed.

End FullStatus.

(** ** Schedulers *)

Lemma fair_in_order : fair in_order.
Proof. intros i paths. apply Permutation_refl. Qed.

Lemma fair_last_first : fair last_first.
Proof. intros i paths. symmetry. apply Permutation_rev. Qed.

(** ** The example project *)

(** C2.  On the example project, whose [docs] group has the two source files
    [docs/en/a.md] and [docs/en/b.md], the order of the report is the order
    in which the callbacks of [Promise.all] finish, not the order of the
    sorted paths: when they finish in the order in which they were started the
    report lists [a] then [b], and when the callback of [b] finishes first the
    report of the same tree and history lists [b] then [a]. *)
Theorem report_order_follows_completion :
  fair in_order
  /\ fair last_first
  /\ Array_sort (sourceFilePaths Example.externals (Example.project [Example.docs])
                   Example.docs)
     = ["docs/en/a.md"; "docs/en/b.md"]
  /\ outcome (getFullStatus Example.externals (Example.project [Example.docs]) in_order)
     = Returned [Example.entry_a; Example.entry_b]
  /\ outcome (getFullStatus Example.externals (Example.project [Example.docs]) last_first)
     = Returned [Example.entry_b; Example.entry_a].
Proof.
  split; [ exact fair_in_order | ].
  split; [ exact fair_last_first | ].
  repeat split; vm_compute; reflexivity.
Qed.

(** C1 as stated fails: [docs/fr/b.md] does not exist on disk, and the
    history provider is asked about it all the same. *)
Lemma missing_before_history_fails :
  ~ missing_before_history Example.externals (Example.project [Example.docs])
      "docs/en/b.md".
Proof.
  intros H.
  apply (H Example.docs (mkLocale "fr")); [ reflexivity | simpl; auto | reflexivity | ].
  vm_compute. auto.
Qed.

(** C1 (amended) on [docs/en/b.md]. *)
Lemma history_once_per_locale_witness :
  historyCalls
    (events (getFileStatus Example.externals (Example.project [Example.docs])
               "docs/en/b.md"))
  = ["docs/en/b.md"; "docs/fr/b.md"]
  /\ In Example.localization_b (localizations Example.entry_b).
Proof.
  destruct (history_once_per_locale Example.externals (Example.project [Example.docs])
              "docs/en/b.md" Example.docs Example.entry_b eq_refl eq_refl)
    as [Hcalls Hmissing].
  split; [ exact Hcalls | ].
  apply (Hmissing (mkLocale "fr")); [ simpl; auto | reflexivity ].
Defined.

(** C3 on [docs/en/a.md], changed after [docs/fr/a.md]. *)
Lemma outdated_iff_source_later_witness :
  loc_status Example.localization_a = outdated
  <-> later (Some 1709251200000%Z) (Some 1706745600000%Z).
Proof.
  exact (proj1 (proj2 (proj2
    (outdated_iff_source_later Example.externals (Example.project [Example.docs])
       "docs/en/a.md" Example.entry_a Example.localization_a
       eq_refl (or_introl eq_refl) eq_refl)))).
Defined.

(** C4 on the dictionary [i18n/en/ui.json], whose French file cannot be
    parsed. *)
Lemma parse_error_is_fatal_witness :
  outcome (getFullStatus Example.externals
             (Example.project [Example.docs; Example.i18n]) in_order)
  = Exited 1%Z.
Proof.
  exact (proj1 (proj1 (proj2
    (parse_error_is_fatal Example.externals
       (Example.project [Example.docs; Example.i18n]) in_order
       Example.i18n Example.i18n "i18n/en/ui.json" (mkLocale "fr") true
       "i18n/fr/ui.json: Unexpected end of JSON input"
       fair_in_order (or_intror (or_introl eq_refl)) (or_introl eq_refl)
       eq_refl eq_refl eq_refl (or_introl eq_refl) eq_refl eq_refl)))).
Defined.

(** C5 on the draft, between the two other source files. *)
Lemma skipped_file_is_isolated_witness :
  outcome (getFileStatus Example.externals (Example.project [Example.docs_with_drafts])
             "docs/en/draft.md")
  = Returned None
  /\ outcome (dispatch Example.externals (Example.project [Example.docs_with_drafts])
                ["docs/en/a.md"; "docs/en/draft.md"; "docs/en/b.md"] [])
     = outcome (dispatch Example.externals (Example.project [Example.docs_with_drafts])
                  ["docs/en/a.md"; "docs/en/b.md"] []).
Proof.
  destruct (skipped_file_is_isolated Example.externals
              (Example.project [Example.docs_with_drafts]) "docs/en/draft.md"
              (or_intror (ex_intro _ "docs/en/draft.md: invalid frontmatter" eq_refl)))
    as (Hnone & _ & Hothers).
  split; [ exact Hnone | ].
  exact (Hothers ["docs/en/a.md"] ["docs/en/b.md"] []).
Defined.

(** C6 as stated fails: with two [files] entries whose globs and patterns
    overlap, each source file has two entries in the report. *)
Lemma unique_by_source_path_fails :
  exists report,
    outcome (getFullStatus Example.externals
               (Example.project [Example.docs; Example.docs_with_drafts]) in_order)
    = Returned report
    /\ ~ unique_by_source_path report.
Proof.
  eexists. split; [ vm_compute; reflexivity | ].
  unfold unique_by_source_path. simpl. intros H.
  inversion H as [ | x xs Hnotin _]. apply Hnotin. simpl. auto.
Qed.

(** C6 (amended) on the project with the documents and the dictionary, two
    groups that do not overlap. *)
Lemma entries_unique_without_overlap_witness :
  exists report,
    outcome (getFullStatus Example.externals TwoGroups.project in_order) = Returned report
    /\ unique_by_source_path report.
Proof.
  eexists. split; [ vm_compute; reflexivity | ].
  refine (proj1 (proj2 (entries_unique_without_overlap Example.externals
                          TwoGroups.project in_order _ fair_in_order eq_refl)) _ _).
  - intros file [<- | [<- | []]]; vm_compute;
      repeat constructor; simpl; intuition discriminate.
  - intros before file after path other Hfiles Hpath Hother.
    destruct before as [ | b0 [ | b1 before]]; simpl in Hfiles.
    + injection Hfiles as <- <-. destruct Hother as [<- | []].
      vm_compute in Hpath. destruct Hpath as [<- | [<- | []]]; reflexivity.
    + injection Hfiles as <- <- <-. destruct Hother as [<- | []].
      vm_compute in Hpath. destruct Hpath as [<- | []]. reflexivity.
    + injection Hfiles as _ _ Hnil. destruct before; discriminate.
Defined.

(** C7 on the missing French file of [docs/en/b.md]. *)
Lemma localization_fields_witness :
  (loc_git Example.localization_b = None <-> loc_status Example.localization_b = missing)
  /\ (loc_missingKeys Example.localization_b <> None ->
      entry_type Example.entry_b = "dictionary").
Proof.
  exact (localization_fields Example.externals (Example.project [Example.docs]) in_order
           [Example.entry_a; Example.entry_b] Example.entry_b Example.localization_b
           eq_refl (or_intror (or_introl eq_refl)) (or_introl eq_refl)).
Defined.

(** C8 on a path that both [files] entries match. *)
Lemma findFileConfig_first_witness :
  findFileConfig Example.externals
    (Example.project [Example.docs; Example.docs_with_drafts]) "docs/en/a.md"
  = Some Example.docs
  /\ isFileConfigMatch Example.externals
       (Example.project [Example.docs; Example.docs_with_drafts]) "docs/en/a.md"
       Example.docs_with_drafts = true.
Proof.
  split; [ | reflexivity ].
  apply (findFileConfig_first Example.externals
           (Example.project [Example.docs; Example.docs_with_drafts]) "docs/en/a.md"
           [] Example.docs [Example.docs_with_drafts]);
    [ reflexivity | reflexivity | intros file [] ].
Defined.

(** C9 on a French path, whose source path is another file. *)
Lemma localizable_check_on_given_path_witness :
  toSourcePath Example.externals (Example.project [Example.docs]) Example.docs
    "docs/fr/a.md" = "docs/en/a.md"
  /\ localizableChecks
       (events (getFileStatus Example.externals (Example.project [Example.docs])
                  "docs/fr/a.md"))
     = ["docs/fr/a.md"].
Proof.
  split; [ reflexivity | ].
  apply (localizable_check_on_given_path Example.externals
           (Example.project [Example.docs]) "docs/fr/a.md" Example.docs).
  reflexivity.
Defined.

(** C10 on [docs/en/a.md]. *)
Lemma entry_carries_file_config_witness :
  exists fc,
    findFileConfig Example.externals (Example.project [Example.docs]) "docs/en/a.md"
    = Some fc
    /\ entry_include Example.entry_a = include fc
    /\ entry_exclude Example.entry_a = exclude fc
    /\ entry_pattern Example.entry_a = pattern fc
    /\ entry_type Example.entry_a = type fc
    /\ entry_optionalKeys Example.entry_a = optionalKeys fc.
Proof.
  exact (entry_carries_file_config Example.externals (Example.project [Example.docs])
           "docs/en/a.md" Example.entry_a eq_refl).
Defined.

(* ================================================================== *)
(** * Further properties *)

(** ** Observations of a run *)

Lemma existsChecks_app (t t' : list Event) :
  existsChecks (t ++ t') = existsChecks t ++ existsChecks t'.
Proof.
  induction t as [ | e t IH]; [ reflexivity | ].
  destruct e; simpl; rewrite IH; reflexivity.
Qed.

Lemma dictionaryCalls_app (t t' : list Event) :
  dictionaryCalls (t ++ t') = dictionaryCalls t ++ dictionaryCalls t'.
Proof.
  induction t as [ | e t IH]; [ reflexivity | ].
  destruct e; simpl; rewrite IH; reflexivity.
Qed.

Lemma globCalls_app (t t' : list Event) :
  globCalls (t ++ t') = globCalls t ++ globCalls t'.
Proof.
  induction t as [ | e t IH]; [ reflexivity | ].
  destruct e; simpl; rewrite IH; reflexivity.
Qed.

Lemma warnings_app (t t' : list Event) :
  warnings (t ++ t') = warnings t ++ warnings t'.
Proof.
  induction t as [ | e t IH]; [ reflexivity | ].
  destruct e; simpl; rewrite IH; reflexivity.
Qed.

Lemma belowFullStatus_quiet (t : list Event) :
  forallb belowFullStatus t = true ->
  globCalls t = [] /\ warnings t = [].
Proof.
  induction t as [ | e t IH]; simpl; [ auto | ].
  intros H. apply andb_true_iff in H. destruct H as [He Ht].
  destruct (IH Ht) as [IHg IHw].
  destruct e; simpl in *; try discriminate; auto.
Qed.

(** ** The run of [getFileStatus] *)

Section FileStatusRuns.

Context {Pattern OptionalKeys : Type}.
Variable E : Externals Pattern OptionalKeys.
Variable config : LunariaConfig Pattern OptionalKeys.

Local Abbreviation FileConfig := (FileConfig Pattern OptionalKeys).
Local Abbreviation StatusEntry := (StatusEntry Pattern OptionalKeys).

Lemma entryTypeData_run (fc : FileConfig) (sp lp : string) (data : option (list string)) :
  outcome (entryTypeData E fc sp lp) = Returned data ->
  events (entryTypeData E fc sp lp)
  = (if (type fc =? "dictionary")%string then [call_getDictionaryCompletion sp lp] else [])
  /\ (type fc = "dictionary" ->
      exists keys, getDictionaryCompletion E (optionalKeys fc) sp lp = inr keys
                   /\ data = Some keys).
Proof.
  unfold entryTypeData.
  destruct (String.eqb_spec (type fc) "dictionary") as [Heq | Hne].
  - rewrite emit_then.
    destruct (getDictionaryCompletion E (optionalKeys fc) sp lp) as [e | keys].
    + rewrite bind_run. destruct e; discriminate.
    + intros H. injection H as <-. split; [ reflexivity | ]. intros _. eauto.
  - intros _. split; [ reflexivity | ]. intros Heq. contradiction.
Qed.

(** The events of the callback of a locale that returns, and the keys it
    reports for a dictionary. *)
Lemma localizationEntry_run (fc : FileConfig) (path sp : string) (src : FileGitData)
    (locale : Locale) (l : StatusLocalizationEntry) :
  outcome (localizationEntry E config fc path sp src locale) = Returned l ->
  events (localizationEntry E config fc path sp src locale)
  = call_getFileLatestChanges (localizedPathOf E config fc path locale)
    :: call_existsSync (resolve E (localizedPathOf E config fc path locale))
    :: (if existsSync E (resolve E (localizedPathOf E config fc path locale))
           && (type fc =? "dictionary")%string
        then [call_getDictionaryCompletion sp (localizedPathOf E config fc path locale)]
        else [])
  /\ (existsSync E (resolve E (localizedPathOf E config fc path locale)) = true ->
      type fc = "dictionary" ->
      exists keys,
        getDictionaryCompletion E (optionalKeys fc) sp
          (localizedPathOf E config fc path locale) = inr keys
        /\ loc_missingKeys l = Some keys).
Proof.
  unfold localizationEntry. cbv zeta. rewrite !emit_then.
  set (lp := localizedPathOf E config fc path locale).
  destruct (existsSync E (resolve E lp)) eqn:Hex; cbn [negb andb outcome snd events fst].
  - intros H. apply bind_returned in H. destruct H as (data & Hdata & H & Hev).
    cbn [outcome snd ret] in H. injection H as <-. cbn [loc_missingKeys].
    apply entryTypeData_run in Hdata. destruct Hdata as [Hevents Hkeys].
    split; [ | intros _; exact Hkeys ].
    rewrite Hev, Hevents. cbn [ret events fst]. rewrite app_nil_r. reflexivity.
  - intros H. split; [ reflexivity | discriminate ].
Qed.

(** The events of [getFileStatus] below [getFullStatus]. *)
Lemma localizationEntry_below (fc : FileConfig) (path sp : string) (src : FileGitData)
    (locale : Locale) :
  forallb belowFullStatus (events (localizationEntry E config fc path sp src locale)) = true.
Proof.
  unfold localizationEntry. cbv zeta. rewrite !emit_then.
  destruct (existsSync E _); simpl; [ | reflexivity ].
  rewrite bind_run. unfold entryTypeData.
  destruct (type fc =? "dictionary")%string; [ | reflexivity ].
  rewrite emit_then.
  destruct (getDictionaryCompletion E _ _ _) as [[m | ] | keys]; reflexivity.
Qed.

Lemma Promise_all_map_below (fc : FileConfig) (path sp : string) (src : FileGitData)
    (ls : list Locale) :
  forallb belowFullStatus
    (events (Promise_all_map (localizationEntry E config fc path sp src) ls)) = true.
Proof.
  induction ls as [ | locale ls IH]; [ reflexivity | ].
  simpl Promise_all_map.
  rewrite events_bind, forallb_app, localizationEntry_below.
  destruct (outcome (localizationEntry E config fc path sp src locale)); [ | reflexivity ].
  rewrite events_bind, forallb_app, IH.
  destruct (outcome (Promise_all_map _ ls)); reflexivity.
Qed.

Lemma getFileStatus_below (path : string) :
  forallb belowFullStatus (events (getFileStatus E config path)) = true.
Proof.
  unfold getFileStatus.
  destruct (findFileConfig E config path) as [fc | ]; [ | reflexivity ].
  cbv zeta. rewrite emit_then.
  destruct (isFileLocalizable E path _) as [message | value]; [ reflexivity | ].
  rewrite emit_then. cbn [events fst forallb belowFullStatus andb].
  change (forallb belowFullStatus
            (events (ls <- Promise_all_map
                       (localizationEntry E config fc path (toSourcePath E config fc path)
                          (getFileLatestChanges E (toSourcePath E config fc path)))
                       (locales config) ;;
                     ret (Some (mkEntry (include fc) (exclude fc) (pattern fc) (type fc)
                                  (optionalKeys fc)
                                  (mkSource (lang (sourceLocale config))
                                     (toSourcePath E config fc path)
                                     (getFileLatestChanges E (toSourcePath E config fc path)))
                                  ls)))) = true).
  rewrite events_bind, forallb_app, Promise_all_map_below.
  destruct (outcome (Promise_all_map _ _)); reflexivity.
Qed.

(** The localizable check of [getFileStatus], for a path that has a [files]
    entry. *)
Lemma getFileStatus_checks (path : string) (fc : FileConfig) :
  findFileConfig E config path = Some fc ->
  localizableChecks (events (getFileStatus E config path)) = [path].
Proof.
  intros Hfc. unfold getFileStatus. rewrite Hfc. cbv zeta. rewrite emit_then.
  destruct (isFileLocalizable E path _) as [message | value].
  - rewrite emit_then. reflexivity.
  - rewrite emit_then. cbn [events fst localizableChecks]. f_equal.
    rewrite events_bind, localizableChecks_app, Promise_all_map_checks.
    destruct (outcome (Promise_all_map _ _)); reflexivity.
Qed.

(** When [getFileStatus] returns no entry. *)
Lemma getFileStatus_none (path : string) :
  outcome (getFileStatus E config path) = Returned None ->
  (findFileConfig E config path = None
   /\ events (getFileStatus E config path)
      = [logger_error (FileConfigNotFound_message E)])
  \/ exists fc message,
       findFileConfig E config path = Some fc
       /\ isFileLocalizable E path (localizableProperty (tracking config))
          = LocalizableError message
       /\ events (getFileStatus E config path)
          = [call_isFileLocalizable path (localizableProperty (tracking config));
             logger_error message].
Proof.
  unfold getFileStatus.
  destruct (findFileConfig E config path) as [fc | ]; [ | left; auto ].
  cbv zeta. rewrite emit_then.
  destruct (isFileLocalizable E path _) as [message | value].
  - intros _. right. exists fc, message. auto.
  - rewrite emit_then. cbn [outcome snd]. intros H.
    apply bind_returned in H. destruct H as (locs & _ & H & _). discriminate.
Qed.

End FileStatusRuns.

Lemma Forall2_map_eq {A B C : Type} (R : A -> B -> Prop) (f : B -> C) (g : A -> C)
    (xs : list A) (ys : list B) :
  (forall x y, R x y -> f y = g x) ->
  Forall2 R xs ys -> map f ys = map g xs.
Proof.
  intros HR. induction 1 as [ | x y xs ys Hxy _ IH]; [ reflexivity | ].
  simpl. rewrite (HR x y Hxy), IH. reflexivity.
Qed.

Lemma Promise_all_map_ext {A B : Type} (body body' : A -> Run B) (xs : list A) :
  (forall x, In x xs -> body x = body' x) ->
  Promise_all_map body xs = Promise_all_map body' xs.
Proof.
  induction xs as [ | x xs IH]; intros H; [ reflexivity | ].
  simpl. rewrite (H x) by (simpl; auto). rewrite IH; [ reflexivity | ].
  intros y Hy. apply H. simpl. auto.
Qed.

Section FileStatusExtras.

Context {Pattern OptionalKeys : Type}.
Variable E : Externals Pattern OptionalKeys.
Variable config : LunariaConfig Pattern OptionalKeys.

Local Abbreviation FileConfig := (FileConfig Pattern OptionalKeys).
Local Abbreviation StatusEntry := (StatusEntry Pattern OptionalKeys).

(** X1.  [findFileConfig] answers an entry of [files] whose pattern matches
    the path in its source or in its locales form, and it answers nothing
    exactly when no entry of [files] matches the path in either form. *)
Theorem findFileConfig_sound_complete (path : string) :
  (forall fc,
     findFileConfig E config path = Some fc ->
     In fc (files config)
     /\ (isSourcePathMatch (getPathResolver E config (pattern fc)) path = true
         \/ isLocalesPathMatch (getPathResolver E config (pattern fc)) path = true))
  /\ (findFileConfig E config path = None <->
      forall file,
        In file (files config) ->
        isSourcePathMatch (getPathResolver E config (pattern file)) path = false
        /\ isLocalesPathMatch (getPathResolver E config (pattern file)) path = false).
Proof.
  unfold findFileConfig. split; [ | split ].
  - intros fc H. apply find_some in H. destruct H as [Hin Hmatch].
    split; [ exact Hin | ]. apply orb_true_iff. exact Hmatch.
  - intros H file Hin. apply orb_false_iff.
    exact (find_none _ _ H file Hin).
  - intros H. destruct (find _ _) as [fc | ] eqn:Hfind; [ | reflexivity ].
    apply find_some in Hfind. destruct Hfind as [Hin Hmatch].
    destruct (H fc Hin) as [Hs Hl].
    unfold isFileConfigMatch in Hmatch. cbv zeta in Hmatch.
    rewrite Hs, Hl in Hmatch. discriminate.
Qed.

(** X2.  A path kept by the source pattern of a [files] entry always has a
    [files] configuration, so that [getFileStatus] starts with the
    localizable check when [getFullStatus] calls it: the branch that logs
    [FileConfigNotFound] is only reached by direct calls. *)
Theorem dispatched_path_has_config (file : FileConfig) (path : string) :
  In file (files config) ->
  In path (sourceFilePaths E config file) ->
  exists fc t,
    findFileConfig E config path = Some fc
    /\ In fc (files config)
    /\ events (getFileStatus E config path)
       = call_isFileLocalizable path (localizableProperty (tracking config)) :: t.
Proof.
  intros Hfile Hpath. unfold sourceFilePaths in Hpath.
  apply filter_In in Hpath. destruct Hpath as [_ Hmatch].
  destruct (findFileConfig E config path) as [fc | ] eqn:Hfind.
  - pose proof Hfind as Hsome. unfold findFileConfig in Hsome.
    apply find_some in Hsome. destruct Hsome as [Hin _].
    unfold getFileStatus. rewrite Hfind. cbv zeta. rewrite emit_then.
    exists fc. eexists. split; [ reflexivity | ]. split; [ exact Hin | reflexivity ].
  - unfold findFileConfig in Hfind.
    pose proof (find_none _ _ Hfind file Hfile) as Hnone.
    unfold isFileConfigMatch in Hnone. cbv zeta in Hnone.
    rewrite Hmatch in Hnone. discriminate.
Qed.

(** X3.  An entry returned by [getFileStatus] has exactly one localization
    per target locale, in the order of [locales]: its language is the one of
    the locale and its path is [toPath] of the given path for that
    language. *)
Theorem one_localization_per_locale (path : string) (fc : FileConfig) (entry : StatusEntry) :
  findFileConfig E config path = Some fc ->
  outcome (getFileStatus E config path) = Returned (Some entry) ->
  map loc_lang (localizations entry) = map lang (locales config)
  /\ map loc_path (localizations entry)
     = map (localizedPathOf E config fc path) (locales config).
Proof.
  intros Hfc H. apply getFileStatus_returned in H.
  destruct H as (fc' & value & Hfc' & _ & _ & _ & _ & _ & _ & _ & Hlocs & _).
  rewrite Hfc in Hfc'. injection Hfc' as <-.
  apply Promise_all_map_returned in Hlocs. destruct Hlocs as [Hall _].
  split; eapply Forall2_map_eq; try exact Hall; intros locale l Hl;
    apply localizationEntry_returned in Hl; tauto.
Qed.

(** X4.  In an entry returned by [getFileStatus], a localization is [missing]
    if and only if [existsSync] answers false for its resolved path. *)
Theorem missing_iff_absent (path : string) (entry : StatusEntry)
    (l : StatusLocalizationEntry) :
  outcome (getFileStatus E config path) = Returned (Some entry) ->
  In l (localizations entry) ->
  (loc_status l = missing <-> existsSync E (resolve E (loc_path l)) = false).
Proof.
  intros H Hin. apply getFileStatus_returned in H.
  destruct H as (fc & value & _ & _ & _ & _ & _ & _ & _ & _ & Hlocs & _).
  apply Promise_all_map_returned in Hlocs. destruct Hlocs as [Hall _].
  destruct (Forall2_In_r _ _ _ _ Hall Hin) as (locale & _ & Hrun).
  apply localizationEntry_returned in Hrun.
  destruct Hrun as (_ & _ & _ & Hmissing & Hexists).
  destruct (existsSync E (resolve E (loc_path l))).
  - destruct (Hexists eq_refl) as (_ & Hstatus & _). rewrite Hstatus.
    destruct (Date_gt E _ _); split; discriminate.
  - rewrite (Hmissing eq_refl). simpl. tauto.
Qed.

(** X5.  In an entry of type dictionary returned by [getFileStatus], the
    localization of a file that exists carries as [missingKeys] what
    [getDictionaryCompletion] returned for the optional keys of the entry, its
    source path and the localized path; the localization of a file that does
    not exist carries no [missingKeys]. *)
Theorem missingKeys_of_dictionary (path : string) (entry : StatusEntry)
    (l : StatusLocalizationEntry) :
  outcome (getFileStatus E config path) = Returned (Some entry) ->
  entry_type entry = "dictionary" ->
  In l (localizations entry) ->
  (existsSync E (resolve E (loc_path l)) = true ->
   exists keys,
     getDictionaryCompletion E (entry_optionalKeys entry) (src_path (source entry))
       (loc_path l) = inr keys
     /\ loc_missingKeys l = Some keys)
  /\ (existsSync E (resolve E (loc_path l)) = false -> loc_missingKeys l = None).
Proof.
  intros H Hdict Hin. apply getFileStatus_returned in H.
  destruct H as (fc & value & _ & _ & _ & _ & _ & Htype & Hopt & Hsrc & Hlocs & _).
  apply Promise_all_map_returned in Hlocs. destruct Hlocs as [Hall _].
  destruct (Forall2_In_r _ _ _ _ Hall Hin) as (locale & _ & Hrun).
  pose proof (localizationEntry_run _ _ _ _ _ _ _ _ Hrun) as [_ Hkeys].
  apply localizationEntry_returned in Hrun.
  destruct Hrun as (_ & Hpath & _ & Hmissing & _).
  rewrite Hopt, Hsrc, Hpath in *. cbn [src_path]. split.
  - intros Hex. apply Hkeys; [ exact Hex | congruence ].
  - intros Hex. rewrite (Hmissing Hex). reflexivity.
Qed.

Lemma existsChecks_localizations (fc : FileConfig) (path sp : string) (src : FileGitData)
    (ls : list Locale) (locs : list StatusLocalizationEntry) :
  Forall2 (fun locale l =>
             outcome (localizationEntry E config fc path sp src locale) = Returned l)
          ls locs ->
  existsChecks
    (flat_map (fun locale => events (localizationEntry E config fc path sp src locale)) ls)
  = map (fun locale => resolve E (localizedPathOf E config fc path locale)) ls.
Proof.
  induction 1 as [ | locale l ls locs Hl _ IH]; [ reflexivity | ].
  simpl. rewrite existsChecks_app, IH.
  apply localizationEntry_run in Hl. destruct Hl as [Hev _]. rewrite Hev.
  destruct (existsSync E _ && _); reflexivity.
Qed.

Lemma dictionaryCalls_localizations (fc : FileConfig) (path sp : string) (src : FileGitData)
    (ls : list Locale) (locs : list StatusLocalizationEntry) :
  Forall2 (fun locale l =>
             outcome (localizationEntry E config fc path sp src locale) = Returned l)
          ls locs ->
  dictionaryCalls
    (flat_map (fun locale => events (localizationEntry E config fc path sp src locale)) ls)
  = if (type fc =? "dictionary")%string
    then map (fun locale => (sp, localizedPathOf E config fc path locale))
             (filter (fun locale =>
                        existsSync E (resolve E (localizedPathOf E config fc path locale)))
                     ls)
    else [].
Proof.
  induction 1 as [ | locale l ls locs Hl _ IH]; simpl.
  - destruct (type fc =? "dictionary")%string; reflexivity.
  - rewrite dictionaryCalls_app, IH.
    apply localizationEntry_run in Hl. destruct Hl as [Hev _]. rewrite Hev.
    destruct (existsSync E _), (type fc =? "dictionary")%string; reflexivity.
Qed.

(** X6.  When [getFileStatus] returns an entry, it has called [existsSync]
    exactly once per target locale, on the resolved localized path: the
    checks made are, up to their order, those of [locales]. *)
Theorem exists_checked_once_per_locale (path : string) (fc : FileConfig)
    (entry : StatusEntry) :
  findFileConfig E config path = Some fc ->
  outcome (getFileStatus E config path) = Returned (Some entry) ->
  Permutation
    (existsChecks (events (getFileStatus E config path)))
    (map (fun locale => resolve E (localizedPathOf E config fc path locale))
         (locales config)).
Proof.
  intros Hfc H. apply getFileStatus_returned in H.
  destruct H as (fc' & value & Hfc' & _ & _ & _ & _ & _ & _ & _ & Hlocs & Hev).
  rewrite Hfc in Hfc'. injection Hfc' as <-.
  apply Promise_all_map_returned in Hlocs. destruct Hlocs as [Hall Hevs].
  rewrite Hev. cbn [existsChecks]. rewrite Hevs.
  erewrite existsChecks_localizations by exact Hall. apply Permutation_refl.
Qed.

(** X7.  When [getFileStatus] returns an entry, [getDictionaryCompletion] has
    been called only if the [files] entry is of type dictionary, and then
    once for each target locale whose localized file exists and for no other,
    up to the order of the calls: a missing file is never parsed. *)
Theorem dictionary_checked_only_when_present (path : string) (fc : FileConfig)
    (entry : StatusEntry) :
  findFileConfig E config path = Some fc ->
  outcome (getFileStatus E config path) = Returned (Some entry) ->
  Permutation
    (dictionaryCalls (events (getFileStatus E config path)))
    (if (type fc =? "dictionary")%string
     then map (fun locale => (toSourcePath E config fc path,
                              localizedPathOf E config fc path locale))
              (filter (fun locale =>
                         existsSync E (resolve E (localizedPathOf E config fc path locale)))
                      (locales config))
     else []).
Proof.
  intros Hfc H. apply getFileStatus_returned in H.
  destruct H as (fc' & value & Hfc' & _ & _ & _ & _ & _ & _ & _ & Hlocs & Hev).
  rewrite Hfc in Hfc'. injection Hfc' as <-.
  apply Promise_all_map_returned in Hlocs. destruct Hlocs as [Hall Hevs].
  rewrite Hev. cbn [dictionaryCalls]. rewrite Hevs.
  erewrite dictionaryCalls_localizations by exact Hall. apply Permutation_refl.
Qed.

(** X8.  [getFileStatus] returns no entry exactly for the paths that have no
    [files] configuration or that are not localizable: any other path either
    gets an entry or ends the process. *)
Theorem no_entry_iff_skipped (path : string) :
  outcome (getFileStatus E config path) = Returned None <-> skipped E config path.
Proof.
  split.
  - intros H. apply getFileStatus_none in H.
    destruct H as [[Hnone _] | (fc & message & _ & Herr & _)].
    + left. exact Hnone.
    + right. exists message. exact Herr.
  - intros H. apply getFileStatus_skipped in H. tauto.
Qed.

(** X9.  [getFileStatus] can be given the path of a localized file: when the
    resolver sends it to a source path of the same [files] entry from which
    the same localized paths are derived, and both files pass the localizable
    check, the result is the one obtained for the source path itself. *)
Theorem localized_path_same_status (path : string) (fc : FileConfig) (value value' : bool) :
  findFileConfig E config path = Some fc ->
  findFileConfig E config (toSourcePath E config fc path) = Some fc ->
  isSourcePathMatch (getPathResolver E config (pattern fc))
    (toSourcePath E config fc path) = true ->
  (forall locale,
     In locale (locales config) ->
     localizedPathOf E config fc (toSourcePath E config fc path) locale
     = localizedPathOf E config fc path locale) ->
  isFileLocalizable E path (localizableProperty (tracking config))
  = LocalizableValue value ->
  isFileLocalizable E (toSourcePath E config fc path) (localizableProperty (tracking config))
  = LocalizableValue value' ->
  outcome (getFileStatus E config path)
  = outcome (getFileStatus E config (toSourcePath E config fc path)).
Proof.
  intros Hfc Hfc' Hsrc Hpaths Hloc Hloc'.
  assert (Hidem : toSourcePath E config fc (toSourcePath E config fc path)
                  = toSourcePath E config fc path).
  { unfold toSourcePath at 1. cbv zeta. rewrite Hsrc. reflexivity. }
  unfold getFileStatus at 1 2. rewrite Hfc, Hfc'. cbv zeta.
  rewrite Hidem, Hloc, Hloc'. cbv beta iota. rewrite !emit_then. cbn [outcome snd].
  rewrite (Promise_all_map_ext
             (localizationEntry E config fc (toSourcePath E config fc path)
                (toSourcePath E config fc path)
                (getFileLatestChanges E (toSourcePath E config fc path)))
             (localizationEntry E config fc path (toSourcePath E config fc path)
                (getFileLatestChanges E (toSourcePath E config fc path)))).
  - reflexivity.
  - intros locale Hin. unfold localizationEntry. cbv zeta.
    rewrite (Hpaths locale Hin). reflexivity.
Qed.

End FileStatusExtras.

(** ** The order of paths *)

Lemma String_leb_trans (a b c : string) :
  String.leb a b = true -> String.leb b c = true -> String.leb a c = true.
Proof.
  unfold String.leb. revert b c.
  induction a as [ | x a IH]; intros [ | y b] [ | z c]; simpl;
    try reflexivity; try discriminate.
  specialize (IH b c). unfold Ascii.compare.
  destruct (N.compare_spec (N_of_ascii x) (N_of_ascii y)) as [Hxy | Hxy | Hxy];
    destruct (N.compare_spec (N_of_ascii y) (N_of_ascii z)) as [Hyz | Hyz | Hyz];
    destruct (N.compare_spec (N_of_ascii x) (N_of_ascii z)) as [Hxz | Hxz | Hxz];
    try discriminate; try reflexivity; try exact IH; intros; exfalso; lia.
Qed.

Lemma PathOrder_leb_trans : Relations_1.Transitive (fun a b => is_true (PathOrder.leb a b)).
Proof. intros a b c. unfold is_true, PathOrder.leb. apply String_leb_trans. Qed.

Lemma Array_sort_sorted (paths : list string) :
  StronglySorted (fun a b => String.leb a b = true) (Array_sort paths).
Proof.
  exact (PathSort.StronglySorted_sort paths PathOrder_leb_trans).
Qed.

(** ** The run of [getFullStatus] *)

Lemma Promise_all_map_total {A B : Type} (body : A -> Run B) (xs : list A) :
  (forall x, In x xs -> exists y, outcome (body x) = Returned y) ->
  exists ys, outcome (Promise_all_map body xs) = Returned ys.
Proof.
  induction xs as [ | x xs IH]; intros H; [ exists []; reflexivity | ].
  destruct (H x) as [y Hy]; [ simpl; auto | ].
  destruct IH as [ys Hys]; [ intros x' Hx'; apply H; simpl; auto | ].
  exists (y :: ys). simpl. rewrite bind_run, Hy. cbn [outcome snd].
  rewrite bind_run, Hys. reflexivity.
Qed.

Section FullStatusRuns.

Context {Pattern OptionalKeys : Type}.
Variable E : Externals Pattern OptionalKeys.
Variable config : LunariaConfig Pattern OptionalKeys.

Local Abbreviation FileConfig := (FileConfig Pattern OptionalKeys).
Local Abbreviation StatusEntry := (StatusEntry Pattern OptionalKeys).
Local Abbreviation LunariaStatus := (LunariaStatus Pattern OptionalKeys).

Lemma pushFileStatus_events (status status' : LunariaStatus) (path : string) :
  outcome (pushFileStatus E config status path) = Returned status' ->
  events (pushFileStatus E config status path) = events (getFileStatus E config path).
Proof.
  unfold pushFileStatus. intros H.
  apply bind_returned in H. destruct H as (o & Ho & _ & _).
  rewrite events_bind, Ho. destruct o; cbn [ret events fst]; apply app_nil_r.
Qed.

Lemma dispatch_events (paths : list string) (status status' : LunariaStatus) :
  outcome (dispatch E config paths status) = Returned status' ->
  events (dispatch E config paths status)
  = flat_map (fun path => events (getFileStatus E config path)) paths.
Proof.
  unfold dispatch. revert status.
  induction paths as [ | path paths IH]; simpl; intros status H; [ reflexivity | ].
  apply bind_returned in H. destruct H as (status1 & H1 & H & Hev).
  rewrite Hev, (pushFileStatus_events _ _ _ H1), (IH _ H). reflexivity.
Qed.

Lemma dispatch_total (paths : list string) (status : LunariaStatus) :
  Forall (fun path => exists o, outcome (getFileStatus E config path) = Returned o) paths ->
  exists status', outcome (dispatch E config paths status) = Returned status'.
Proof.
  unfold dispatch. intros H. revert status.
  induction H as [ | path paths [o Ho] _ IH]; intros status; simpl.
  - eexists. reflexivity.
  - rewrite bind_run. unfold pushFileStatus at 1. rewrite bind_run, Ho.
    destruct o as [entry | ]; cbn [outcome snd ret]; apply IH.
Qed.

Lemma forFile_events (sched : Scheduler) (i : nat) (file : FileConfig)
    (status : LunariaStatus) :
  events (forFile E config sched i file status)
  = preamble E config file
    ++ events (dispatch E config (sched i (Array_sort (sourceFilePaths E config file)))
                 status).
Proof.
  unfold forFile, preamble. rewrite !emit_then. cbn [events fst].
  rewrite bind_run. destruct (0 <? _)%nat; reflexivity.
Qed.

Lemma forFiles_events (sched : Scheduler) (i : nat) (rest : list FileConfig)
    (status status' : LunariaStatus) :
  outcome (forFiles E config sched i rest status) = Returned status' ->
  events (forFiles E config sched i rest status) = runTrace E config sched i rest.
Proof.
  revert i status. induction rest as [ | file rest IH]; simpl; intros i status H;
    [ reflexivity | ].
  apply bind_returned in H. destruct H as (status1 & H1 & H & Hev).
  rewrite Hev, forFile_events, (IH _ _ H), <- app_assoc.
  rewrite forFile_outcome in H1. rewrite (dispatch_events _ _ _ H1). reflexivity.
Qed.

Lemma forFiles_total (sched : Scheduler) (i : nat) (rest : list FileConfig)
    (status : LunariaStatus) :
  Forall (fun path => exists o, outcome (getFileStatus E config path) = Returned o)
         (finishing E config sched i rest) ->
  exists status', outcome (forFiles E config sched i rest status) = Returned status'.
Proof.
  revert i status. induction rest as [ | file rest IH]; simpl; intros i status H.
  - eexists. reflexivity.
  - apply Forall_app in H. destruct H as [Hfile Hrest].
    destruct (dispatch_total _ status Hfile) as [status1 H1].
    rewrite bind_run, forFile_outcome, H1. cbn [outcome snd]. apply IH. exact Hrest.
Qed.

Lemma quiet_file_statuses (paths : list string) :
  globCalls (flat_map (fun path => events (getFileStatus E config path)) paths) = []
  /\ warnings (flat_map (fun path => events (getFileStatus E config path)) paths) = [].
Proof.
  apply belowFullStatus_quiet.
  induction paths as [ | path paths IH]; [ reflexivity | ].
  simpl. rewrite forallb_app, getFileStatus_below, IH. reflexivity.
Qed.

Lemma historyCalls_file (path : string) (o : option StatusEntry) :
  outcome (getFileStatus E config path) = Returned o ->
  List.length (historyCalls (events (getFileStatus E config path)))
  = List.length (fileStatusOf E config path) * (1 + List.length (locales config)).
Proof.
  intros H. unfold fileStatusOf. rewrite H. destruct o as [entry | ].
  - apply getFileStatus_returned in H.
    destruct H as (fc & value & _ & _ & _ & _ & _ & _ & _ & _ & Hlocs & Hev).
    apply Promise_all_map_returned in Hlocs. destruct Hlocs as [Hall Hevs].
    rewrite Hev. cbn [historyCalls]. rewrite Hevs.
    rewrite (historyCalls_localizations E config _ _ _ _ _ _ Hall).
    simpl. rewrite length_map. lia.
  - apply getFileStatus_none in H.
    destruct H as [[_ Hev] | (fc & message & _ & _ & Hev)]; rewrite Hev; reflexivity.
Qed.

End FullStatusRuns.

Section FullStatusExtras.

Context {Pattern OptionalKeys : Type}.
Variable E : Externals Pattern OptionalKeys.
Variable config : LunariaConfig Pattern OptionalKeys.

Local Abbreviation FileConfig := (FileConfig Pattern OptionalKeys).
Local Abbreviation StatusEntry := (StatusEntry Pattern OptionalKeys).
Local Abbreviation LunariaStatus := (LunariaStatus Pattern OptionalKeys).

Lemma localizationEntry_total (fc : FileConfig) (path sp : string) (src : FileGitData)
    (locale : Locale) :
  type fc <> "dictionary" ->
  exists l, outcome (localizationEntry E config fc path sp src locale) = Returned l.
Proof.
  intros Htype. unfold localizationEntry. cbv zeta. rewrite !emit_then.
  destruct (existsSync E _); cbn [negb outcome snd]; [ | eexists; reflexivity ].
  unfold entryTypeData. apply String.eqb_neq in Htype. rewrite Htype.
  eexists. reflexivity.
Qed.

Lemma getFileStatus_total (path : string) :
  (forall fc, findFileConfig E config path = Some fc ->
              type fc <> "dictionary" \/ locales config = []) ->
  exists o, outcome (getFileStatus E config path) = Returned o.
Proof.
  intros Hsafe. unfold getFileStatus.
  destruct (findFileConfig E config path) as [fc | ]; [ | eexists; reflexivity ].
  cbv zeta. rewrite emit_then.
  destruct (isFileLocalizable E path _); [ eexists; reflexivity | ].
  rewrite emit_then. cbn [outcome snd].
  destruct (Promise_all_map_total
              (localizationEntry E config fc path (toSourcePath E config fc path)
                 (getFileLatestChanges E (toSourcePath E config fc path)))
              (locales config)) as [locs Hlocs].
  - intros locale Hin. destruct (Hsafe fc eq_refl) as [Htype | Hnil].
    + apply localizationEntry_total. exact Htype.
    + rewrite Hnil in Hin. destruct Hin.
  - rewrite bind_run, Hlocs. eexists. reflexivity.
Qed.

(** X10.  When no entry of [files] is of type dictionary, [getFullStatus]
    returns a report, however its callbacks are scheduled: the process is
    never ended. *)
Theorem no_dictionary_never_exits (sched : Scheduler) :
  (forall file, In file (files config) -> type file <> "dictionary") ->
  exists report, outcome (getFullStatus E config sched) = Returned report.
Proof.
  intros Htypes. apply forFiles_total. apply Forall_forall. intros path _.
  apply getFileStatus_total. intros fc Hfc. left.
  apply Htypes. unfold findFileConfig in Hfc. apply find_some in Hfc. tauto.
Qed.

(** X11.  Without target locales, [getFullStatus] returns a report whatever
    the type of the [files] entries, and every entry of the report has an
    empty list of localizations. *)
Theorem no_locales_no_localizations (sched : Scheduler) :
  locales config = [] ->
  exists report,
    outcome (getFullStatus E config sched) = Returned report
    /\ forall entry, In entry report -> localizations entry = [].
Proof.
  intros Hnil.
  destruct (forFiles_total E config sched 0 (files config) []) as [report Hreport].
  - apply Forall_forall. intros path _. apply getFileStatus_total. auto.
  - exists report. split; [ exact Hreport | ].
    intros entry Hin.
    destruct (report_entry E config sched report entry Hreport Hin) as [path Hpath].
    apply getFileStatus_returned in Hpath.
    destruct Hpath as (fc & value & _ & _ & _ & _ & _ & _ & _ & _ & Hlocs & _).
    rewrite Hnil in Hlocs. simpl in Hlocs. injection Hlocs as <-. reflexivity.
Qed.

(** X12.  Whether [getFullStatus] returns a report does not depend on the
    order in which the callbacks finish, and neither do the entries of the
    report: two runs on the same tree and history return the same entries,
    possibly in another order. *)
Theorem report_entries_independent_of_schedule (sched sched' : Scheduler)
    (report : LunariaStatus) :
  fair sched ->
  fair sched' ->
  outcome (getFullStatus E config sched) = Returned report ->
  exists report',
    outcome (getFullStatus E config sched') = Returned report'
    /\ Permutation report report'.
Proof.
  intros Hfair Hfair' H. apply getFullStatus_returned in H. destruct H as [-> Hall].
  assert (Hperm : Permutation (finishing E config sched 0 (files config))
                              (finishing E config sched' 0 (files config))).
  { rewrite (finishing_dispatched E config sched 0 _ Hfair).
    symmetry. apply finishing_dispatched. exact Hfair'. }
  destruct (forFiles_total E config sched' 0 (files config) []) as [report' Hreport'].
  - eapply Permutation_Forall; eassumption.
  - exists report'. split; [ exact Hreport' | ].
    apply getFullStatus_returned in Hreport'. destruct Hreport' as [-> _].
    apply Permutation_flat_map. exact Hperm.
Qed.

(** X13.  The only way in which [getFullStatus] ends the process is a failed
    dictionary check: the exit code is 1, and the last events of the run are
    the call of [getDictionaryCompletion] that threw, the message of what it
    threw if it is an [Error], and [process.exit(1)]. *)
Theorem exit_is_dictionary_failure (sched : Scheduler) (code : Z) :
  outcome (getFullStatus E config sched) = Exited code ->
  code = 1%Z
  /\ exists t optional sp lp e,
       getDictionaryCompletion E optional sp lp = inl e
       /\ events (getFullStatus E config sched)
          = t ++ call_getDictionaryCompletion sp lp :: events (surface e)
              ++ [process_exit 1%Z].
Proof.
  intros H.
  destruct (forFiles_fatal E config sched 0 (files config) [] code H) as [Hcode Hev].
  fold (getFullStatus E config sched) in Hcode, Hev.
  split; [ congruence | exact Hev ].
Qed.

Lemma sorted_sourcePaths (R : string -> string -> Prop) (paths : list string) :
  (forall path, In path paths -> resolvedSourcePath E config path = path) ->
  StronglySorted R paths ->
  StronglySorted R (sourcePaths (flat_map (fileStatusOf E config) paths)).
Proof.
  intros Hid Hsorted. induction Hsorted as [ | path paths _ IH Hall]; [ constructor | ].
  simpl.
  assert (Hid' : forall p, In p paths -> resolvedSourcePath E config p = p)
    by (intros p Hp; apply Hid; simpl; auto).
  destruct (fileStatusOf_cases E config path) as [-> | (entry & -> & Hsrc)]; simpl.
  - apply IH. exact Hid'.
  - constructor; [ apply IH; exact Hid' | ].
    rewrite Hsrc, (Hid path) by (simpl; auto).
    apply Forall_forall. intros x Hx.
    apply sourcePaths_fileStatusOf in Hx. apply in_map_iff in Hx.
    destruct Hx as (p & <- & Hp). rewrite (Hid' p Hp).
    rewrite Forall_forall in Hall. apply Hall. exact Hp.
Qed.

(** X14.  With a single entry in [files], when the callbacks finish in the
    order in which they were started, the report is sorted by source path, in
    the order of [Array.prototype.sort] on the paths. *)
Theorem in_order_report_is_sorted (file : FileConfig) (report : LunariaStatus) :
  files config = [file] ->
  outcome (getFullStatus E config in_order) = Returned report ->
  StronglySorted (fun a b => String.leb a b = true) (sourcePaths report).
Proof.
  intros Hfiles H. apply getFullStatus_returned in H. destruct H as [-> _].
  rewrite Hfiles. simpl. rewrite app_nil_r. unfold in_order.
  apply sorted_sourcePaths; [ | apply Array_sort_sorted ].
  intros path Hpath.
  apply (Permutation_in path (Permutation_sym (PathSort.Permuted_sort _))) in Hpath.
  unfold sourceFilePaths in Hpath. apply filter_In in Hpath. destruct Hpath as [_ Hmatch].
  unfold resolvedSourcePath, findFileConfig. rewrite Hfiles. simpl.
  unfold isFileConfigMatch. cbv zeta. rewrite Hmatch. simpl.
  unfold toSourcePath. cbv zeta. rewrite Hmatch. reflexivity.
Qed.

(** X15.  Under a fair schedule, every entry of the report is what
    [getFileStatus] returned for a path that [glob] gave for the [include] and
    [exclude] of some entry of [files] and that matches the source pattern of
    that entry: nothing else is ever reported. *)
Theorem report_from_kept_paths (sched : Scheduler) (report : LunariaStatus)
    (entry : StatusEntry) :
  fair sched ->
  outcome (getFullStatus E config sched) = Returned report ->
  In entry report ->
  exists file path,
    In file (files config)
    /\ In path (glob E (include file) (exclude file))
    /\ isSourcePathMatch (getPathResolver E config (pattern file)) path = true
    /\ outcome (getFileStatus E config path) = Returned (Some entry).
Proof.
  intros Hfair H Hin. apply getFullStatus_returned in H. destruct H as [-> _].
  apply in_flat_map in Hin. destruct Hin as (path & Hpath & Hentry).
  apply (Permutation_in path (finishing_dispatched E config sched 0 _ Hfair)) in Hpath.
  apply in_flat_map in Hpath. destruct Hpath as (file & Hfile & Hkept).
  unfold sourceFilePaths in Hkept. apply filter_In in Hkept.
  destruct Hkept as [Hglob Hmatch].
  exists file, path. repeat split; auto.
  apply In_fileStatusOf. exact Hentry.
Qed.

Lemma warnings_runTrace (sched : Scheduler) (i : nat) (rest : list FileConfig) :
  warnings (runTrace E config sched i rest)
  = map (fun file => filteredOutWarning (filteredOutPaths E config file))
        (filter (hasFilteredOut E config) rest).
Proof.
  revert i. induction rest as [ | file rest IH]; intros i; [ reflexivity | ].
  simpl. rewrite !warnings_app, IH.
  destruct (quiet_file_statuses E config
              (sched i (Array_sort (sourceFilePaths E config file)))) as [_ ->].
  unfold preamble, hasFilteredOut.
  destruct (0 <? _)%nat; reflexivity.
Qed.

Lemma globCalls_runTrace (sched : Scheduler) (i : nat) (rest : list FileConfig) :
  globCalls (runTrace E config sched i rest)
  = map (fun file => (include file, exclude file)) rest.
Proof.
  revert i. induction rest as [ | file rest IH]; intros i; [ reflexivity | ].
  simpl. rewrite !globCalls_app, IH.
  destruct (quiet_file_statuses E config
              (sched i (Array_sort (sourceFilePaths E config file)))) as [-> _].
  unfold preamble. destruct (0 <? _)%nat; reflexivity.
Qed.

(** X16.  A run of [getFullStatus] that returns a report has logged one
    warning for each entry of [files] whose glob gave paths that do not match
    its source pattern, in the order of [files], listing those paths; it has
    logged no other warning, and the filtered-out paths do not stop the
    run. *)
Theorem one_warning_per_filtered_group (sched : Scheduler) (report : LunariaStatus) :
  outcome (getFullStatus E config sched) = Returned report ->
  warnings (events (getFullStatus E config sched))
  = map (fun file => filteredOutWarning (filteredOutPaths E config file))
        (filter (hasFilteredOut E config) (files config)).
Proof.
  intros H. unfold getFullStatus in *.
  rewrite (forFiles_events E config _ _ _ _ _ H). apply warnings_runTrace.
Qed.

(** X17.  A run of [getFullStatus] that returns a report has called [glob]
    exactly once per entry of [files], in the order of [files], with the
    [include] globs of the entry and its [exclude] globs as the ones to
    ignore. *)
Theorem one_glob_per_group (sched : Scheduler) (report : LunariaStatus) :
  outcome (getFullStatus E config sched) = Returned report ->
  globCalls (events (getFullStatus E config sched))
  = map (fun file => (include file, exclude file)) (files config).
Proof.
  intros H. unfold getFullStatus in *.
  rewrite (forFiles_events E config _ _ _ _ _ H). apply globCalls_runTrace.
Qed.

Lemma localizableChecks_kept (paths : list string) :
  (forall path, In path paths -> findFileConfig E config path <> None) ->
  localizableChecks (flat_map (fun path => events (getFileStatus E config path)) paths)
  = paths.
Proof.
  induction paths as [ | path paths IH]; intros H; [ reflexivity | ].
  simpl. rewrite localizableChecks_app, IH by (intros p Hp; apply H; simpl; auto).
  destruct (findFileConfig E config path) as [fc | ] eqn:Hfc.
  - rewrite (getFileStatus_checks E config path fc Hfc). reflexivity.
  - elim (H path); simpl; auto.
Qed.

Lemma kept_has_config (file : FileConfig) (path : string) :
  In file (files config) ->
  In path (sourceFilePaths E config file) ->
  findFileConfig E config path <> None.
Proof.
  intros Hfile Hpath Hnone. unfold sourceFilePaths in Hpath.
  apply filter_In in Hpath. destruct Hpath as [_ Hmatch].
  unfold findFileConfig in Hnone.
  pose proof (find_none _ _ Hnone file Hfile) as Hno.
  unfold isFileConfigMatch in Hno. cbv zeta in Hno.
  rewrite Hmatch in Hno. discriminate.
Qed.

Lemma localizableChecks_runTrace (sched : Scheduler) (i : nat)
    (before rest : list FileConfig) :
  fair sched ->
  files config = before ++ rest ->
  localizableChecks (runTrace E config sched i rest) = finishing E config sched i rest.
Proof.
  intros Hfair. revert i before.
  induction rest as [ | file rest IH]; intros i before Hfiles; [ reflexivity | ].
  simpl. rewrite !localizableChecks_app.
  rewrite (IH (S i) (before ++ [file])) by (rewrite <- app_assoc; exact Hfiles).
  rewrite localizableChecks_kept.
  - unfold preamble. destruct (0 <? _)%nat; reflexivity.
  - intros path Hpath. apply (kept_has_config file).
    + rewrite Hfiles. apply in_or_app. right. simpl. auto.
    + apply (Permutation_in path (Hfair i _)) in Hpath.
      apply (Permutation_in path (Permutation_sym (PathSort.Permuted_sort _))).
      exact Hpath.
Qed.

(** X18.  Under a fair schedule, a run of [getFullStatus] that returns a
    report has run the localizable check exactly once for every path kept by
    the source pattern of an entry of [files], as many times as the path is
    kept, and for no other path: the checks made are, up to their order, the
    kept paths, and a filtered-out path is never read. *)
Theorem localizable_check_once_per_kept_path (sched : Scheduler) (report : LunariaStatus) :
  fair sched ->
  outcome (getFullStatus E config sched) = Returned report ->
  Permutation (localizableChecks (events (getFullStatus E config sched)))
              (dispatched E config).
Proof.
  intros Hfair H.
  assert (Heq : localizableChecks (events (getFullStatus E config sched))
                = finishing E config sched 0 (files config)).
  { unfold getFullStatus in *. rewrite (forFiles_events E config _ _ _ _ _ H).
    apply (localizableChecks_runTrace sched 0 []); [ exact Hfair | reflexivity ]. }
  rewrite Heq. apply finishing_dispatched. exact Hfair.
Qed.

Lemma historyCalls_statuses (paths : list string) :
  Forall (fun path => exists o, outcome (getFileStatus E config path) = Returned o) paths ->
  List.length
    (historyCalls (flat_map (fun path => events (getFileStatus E config path)) paths))
  = List.length (flat_map (fileStatusOf E config) paths)
    * (1 + List.length (locales config)).
Proof.
  induction 1 as [ | path paths [o Ho] _ IH]; [ reflexivity | ].
  simpl. rewrite historyCalls_app, !length_app, IH.
  rewrite (historyCalls_file E config path o Ho). lia.
Qed.

Lemma historyCalls_runTrace (sched : Scheduler) (i : nat) (rest : list FileConfig) :
  Forall (fun path => exists o, outcome (getFileStatus E config path) = Returned o)
         (finishing E config sched i rest) ->
  List.length (historyCalls (runTrace E config sched i rest))
  = List.length (flat_map (fileStatusOf E config) (finishing E config sched i rest))
    * (1 + List.length (locales config)).
Proof.
  revert i. induction rest as [ | file rest IH]; intros i H; [ reflexivity | ].
  simpl in *. apply Forall_app in H. destruct H as [Hfile Hrest].
  rewrite !historyCalls_app, flat_map_app, !length_app.
  rewrite (IH _ Hrest), (historyCalls_statuses _ Hfile).
  unfold preamble. destruct (0 <? _)%nat; simpl; lia.
Qed.

(** X19.  A run of [getFullStatus] that returns a report has asked the
    history provider once for the source file and once per target locale for
    each entry of the report, and not at all for the files it skipped: the
    number of history lookups is the number of entries times one plus the
    number of target locales. *)
Theorem history_lookups_per_entry (sched : Scheduler) (report : LunariaStatus) :
  outcome (getFullStatus E config sched) = Returned report ->
  List.length (historyCalls (events (getFullStatus E config sched)))
  = List.length report * (1 + List.length (locales config)).
Proof.
  intros H. pose proof (getFullStatus_returned E config sched report H) as [-> Hall].
  unfold getFullStatus in *. rewrite (forFiles_events E config _ _ _ _ _ H).
  apply historyCalls_runTrace. exact Hall.
Qed.

End FullStatusExtras.

Section GroupOrder.

Context {Pattern OptionalKeys : Type}.
Variable E : Externals Pattern OptionalKeys.
Variable config : LunariaConfig Pattern OptionalKeys.

Lemma finishing_app (sched : Scheduler) (i : nat)
    (first_files next_files : list (FileConfig Pattern OptionalKeys)) :
  finishing E config sched i (first_files ++ next_files)
  = finishing E config sched i first_files
    ++ finishing E config sched (i + List.length first_files) next_files.
Proof.
  revert i. induction first_files as [ | file first_files IH]; intros i; simpl.
  - rewrite Nat.add_0_r. reflexivity.
  - rewrite IH, <- app_assoc, Nat.add_succ_r. reflexivity.
Qed.

(** X20.  However the callbacks are scheduled, the entries of the report
    follow the order of [files]: all the entries obtained for the paths of the
    first entries of [files] come before all the entries obtained for the
    paths of the next ones, since the [Promise.all] of an entry is awaited
    before the next one is started. *)
Theorem groups_in_declaration_order (sched : Scheduler)
    (first_files next_files : list (FileConfig Pattern OptionalKeys))
    (report : LunariaStatus Pattern OptionalKeys) :
  files config = first_files ++ next_files ->
  outcome (getFullStatus E config sched) = Returned report ->
  report
  = flat_map (fileStatusOf E config) (finishing E config sched 0 first_files)
    ++ flat_map (fileStatusOf E config)
         (finishing E config sched (List.length first_files) next_files).
Proof.
  intros Hfiles H. apply getFullStatus_returned in H. destruct H as [-> _].
  rewrite Hfiles, finishing_app, flat_map_app. reflexivity.
Qed.

End GroupOrder.

(** ** The example projects, again *)

(** X2 on [docs/en/a.md], kept by the [docs] group. *)
Lemma dispatched_path_has_config_witness :
  exists fc t,
    findFileConfig Example.externals (Example.project [Example.docs]) "docs/en/a.md"
    = Some fc
    /\ In fc [Example.docs]
    /\ events (getFileStatus Example.externals (Example.project [Example.docs])
                 "docs/en/a.md")
       = call_isFileLocalizable "docs/en/a.md" (Some "i18nReady") :: t.
Proof.
  exact (dispatched_path_has_config Example.externals (Example.project [Example.docs])
           Example.docs "docs/en/a.md" (or_introl eq_refl) (or_intror (or_introl eq_refl))).
Defined.

(** X3 on the dictionary, with its French and German localizations. *)
Lemma one_localization_per_locale_witness :
  map loc_lang (localizations Dictionaries.entry_ui) = ["fr"; "de"]
  /\ map loc_path (localizations Dictionaries.entry_ui)
     = ["i18n/fr/ui.json"; "i18n/de/ui.json"].
Proof.
  exact (one_localization_per_locale Dictionaries.externals Dictionaries.project
           "i18n/en/ui.json" Example.i18n Dictionaries.entry_ui eq_refl eq_refl).
Defined.

(** X4 on the German dictionary, which does not exist. *)
Lemma missing_iff_absent_witness :
  loc_status Dictionaries.localization_de = missing
  <-> Dictionaries.existsSync (Example.resolve "i18n/de/ui.json") = false.
Proof.
  exact (missing_iff_absent Dictionaries.externals Dictionaries.project
           "i18n/en/ui.json" Dictionaries.entry_ui Dictionaries.localization_de
           eq_refl (or_intror (or_introl eq_refl))).
Defined.

(** X5 on the French dictionary, which lacks one key. *)
Lemma missingKeys_of_dictionary_witness :
  exists keys,
    Dictionaries.getDictionaryCompletion (Some []) "i18n/en/ui.json" "i18n/fr/ui.json"
    = inr keys
    /\ loc_missingKeys Dictionaries.localization_fr = Some keys.
Proof.
  exact (proj1 (missingKeys_of_dictionary Dictionaries.externals Dictionaries.project
                  "i18n/en/ui.json" Dictionaries.entry_ui Dictionaries.localization_fr
                  eq_refl eq_refl (or_introl eq_refl))
               eq_refl).
Defined.

(** X6 on the dictionary. *)
Lemma exists_checked_once_per_locale_witness :
  Permutation
    (existsChecks
       (events (getFileStatus Dictionaries.externals Dictionaries.project
                  "i18n/en/ui.json")))
    ["/repo/i18n/fr/ui.json"; "/repo/i18n/de/ui.json"].
Proof.
  exact (exists_checked_once_per_locale Dictionaries.externals Dictionaries.project
           "i18n/en/ui.json" Example.i18n Dictionaries.entry_ui eq_refl eq_refl).
Defined.

(** X7 on the dictionary: the German file is not parsed. *)
Lemma dictionary_checked_only_when_present_witness :
  Permutation
    (dictionaryCalls
       (events (getFileStatus Dictionaries.externals Dictionaries.project
                  "i18n/en/ui.json")))
    [("i18n/en/ui.json", "i18n/fr/ui.json")].
Proof.
  exact (dictionary_checked_only_when_present Dictionaries.externals Dictionaries.project
           "i18n/en/ui.json" Example.i18n Dictionaries.entry_ui eq_refl eq_refl).
Defined.

(** X9 on [docs/fr/a.md], whose source is [docs/en/a.md]. *)
Lemma localized_path_same_status_witness :
  outcome (getFileStatus Example.externals (Example.project [Example.docs]) "docs/fr/a.md")
  = outcome (getFileStatus Example.externals (Example.project [Example.docs])
               "docs/en/a.md").
Proof.
  apply (localized_path_same_status Example.externals (Example.project [Example.docs])
           "docs/fr/a.md" Example.docs true true);
    reflexivity.
Defined.

(** X10 on the project with the [docs] group alone. *)
Lemma no_dictionary_never_exits_witness :
  exists report,
    outcome (getFullStatus Example.externals (Example.project [Example.docs]) last_first)
    = Returned report.
Proof.
  apply (no_dictionary_never_exits Example.externals (Example.project [Example.docs])
           last_first).
  intros file [<- | []]. discriminate.
Defined.

(** X11 on the dictionary that cannot be parsed, without target locales. *)
Lemma no_locales_no_localizations_witness :
  exists report,
    outcome (getFullStatus Example.externals
               (mkLunariaConfig (mkLocale "en") [] [Example.i18n] (mkTracking None))
               in_order)
    = Returned report
    /\ forall entry, In entry report -> localizations entry = [].
Proof.
  exact (no_locales_no_localizations Example.externals
           (mkLunariaConfig (mkLocale "en") [] [Example.i18n] (mkTracking None))
           in_order eq_refl).
Defined.

(** X12 on the two schedules of the [docs] group. *)
Lemma report_entries_independent_of_schedule_witness :
  exists report',
    outcome (getFullStatus Example.externals (Example.project [Example.docs]) last_first)
    = Returned report'
    /\ Permutation [Example.entry_a; Example.entry_b] report'.
Proof.
  exact (report_entries_independent_of_schedule Example.externals
           (Example.project [Example.docs]) in_order last_first
           [Example.entry_a; Example.entry_b] fair_in_order fair_last_first eq_refl).
Defined.

(** X13 on the project whose French dictionary cannot be parsed. *)
Lemma exit_is_dictionary_failure_witness :
  1%Z = 1%Z
  /\ exists t optional sp lp e,
       Example.getDictionaryCompletion optional sp lp = inl e
       /\ events (getFullStatus Example.externals
                    (Example.project [Example.docs; Example.i18n]) in_order)
          = t ++ call_getDictionaryCompletion sp lp
              :: events (surface e) ++ [process_exit 1%Z].
Proof.
  exact (exit_is_dictionary_failure Example.externals
           (Example.project [Example.docs; Example.i18n]) in_order 1%Z eq_refl).
Defined.

(** X14 on the [docs] group. *)
Lemma in_order_report_is_sorted_witness :
  StronglySorted (fun a b => String.leb a b = true)
    (sourcePaths [Example.entry_a; Example.entry_b]).
Proof.
  exact (in_order_report_is_sorted Example.externals (Example.project [Example.docs])
           Example.docs [Example.entry_a; Example.entry_b] eq_refl eq_refl).
Defined.

(** X15 on the entry of [docs/en/b.md]. *)
Lemma report_from_kept_paths_witness :
  exists file path,
    In file [Example.docs]
    /\ In path (Example.glob (include file) (exclude file))
    /\ isSourcePathMatch
         (getPathResolver Example.externals (Example.project [Example.docs])
            (pattern file)) path = true
    /\ outcome (getFileStatus Example.externals (Example.project [Example.docs]) path)
       = Returned (Some Example.entry_b).
Proof.
  exact (report_from_kept_paths Example.externals (Example.project [Example.docs])
           last_first [Example.entry_b; Example.entry_a] Example.entry_b
           fair_last_first eq_refl (or_introl eq_refl)).
Defined.

(** X16 on the dictionary project, whose glob also gives the French file. *)
Lemma one_warning_per_filtered_group_witness :
  warnings (events (getFullStatus Dictionaries.externals Dictionaries.project in_order))
  = [filteredOutWarning ["i18n/fr/ui.json"]].
Proof.
  exact (one_warning_per_filtered_group Dictionaries.externals Dictionaries.project
           in_order [Dictionaries.entry_ui] eq_refl).
Defined.

(** X17 on the project with the two overlapping [docs] groups. *)
Lemma one_glob_per_group_witness :
  globCalls
    (events (getFullStatus Example.externals
               (Example.project [Example.docs; Example.docs_with_drafts]) in_order))
  = [ (["docs/**/*.md"], ["docs/en/draft.md"]); (["docs/**/*.md"], []) ].
Proof.
  exact (one_glob_per_group Example.externals
           (Example.project [Example.docs; Example.docs_with_drafts]) in_order
           [Example.entry_a; Example.entry_b; Example.entry_a; Example.entry_b] eq_refl).
Defined.

(** X18 on the [docs] group, drafts included, the last callback finishing
    first: [docs/fr/a.md] is not read. *)
Lemma localizable_check_once_per_kept_path_witness :
  Permutation
    (localizableChecks
       (events (getFullStatus Example.externals
                  (Example.project [Example.docs_with_drafts]) last_first)))
    ["docs/en/b.md"; "docs/en/a.md"; "docs/en/draft.md"].
Proof.
  exact (localizable_check_once_per_kept_path Example.externals
           (Example.project [Example.docs_with_drafts]) last_first
           (flat_map (fileStatusOf Example.externals
                        (Example.project [Example.docs_with_drafts]))
                     ["docs/en/draft.md"; "docs/en/b.md"; "docs/en/a.md"])
           fair_last_first eq_refl).
Defined.

(** X19 on the dictionary project: one entry, two target locales, three
    lookups. *)
Lemma history_lookups_per_entry_witness :
  List.length
    (historyCalls
       (events (getFullStatus Dictionaries.externals Dictionaries.project in_order)))
  = 3.
Proof.
  exact (history_lookups_per_entry Dictionaries.externals Dictionaries.project in_order
           [Dictionaries.entry_ui] eq_refl).
Defined.

(** X20 on the two [docs] groups, the second one finishing last first. *)
Lemma groups_in_declaration_order_witness :
  [Example.entry_b; Example.entry_a; Example.entry_b; Example.entry_a]
  = [Example.entry_b; Example.entry_a] ++ [Example.entry_b; Example.entry_a].
Proof.
  exact (groups_in_declaration_order Example.externals
           (Example.project [Example.docs; Example.docs_with_drafts]) last_first
           [Example.docs] [Example.docs_with_drafts]
           [Example.entry_b; Example.entry_a; Example.entry_b; Example.entry_a]
           eq_refl eq_refl).
Defined.
